(** * react-random-loading-indicator: the selection engine and its seeded stream

    A shallow embedding of [src/random.ts] ([hashSeed], [createSeededRandom])
    and [src/selection.ts] ([shuffledIndices], [buildCandidates],
    [pickByWeight], [pickNextIndex]), and of the part of
    [src/RandomLoadingIndicator.tsx] that drives them (the weights, the
    callback [selectNext] and the effect that follows [loading]), followed by
    the properties the specification states about them and further
    properties read off the code.

    Conventions of the embedding.
    - Indices, array lengths and [total] are integers ([Z]); [total] may be
      zero or negative, as the guard [total <= 0] of [pickNextIndex] expects.
      The limit on the length of a JavaScript array is not modelled.
    - JavaScript arrays of numbers are [list Z] (or [list Q] for weights);
      reading an array outside its bounds gives [None], which stands for
      [undefined].  A value read this way and returned is the result
      [Undefined].  A swap that would store such a value back into the
      array has no counterpart in [number[]]: the functions that swap
      return an [option], and [None] marks a run that left the arrays of
      numbers.  The theorems show that this does not happen when the random
      source keeps to [0,1).
    - Values drawn from the random source and weights are exact rationals
      ([Q]); the rounding of binary64 products and sums is not part of the
      model.  The 32-bit integer arithmetic of the generator is modelled
      exactly, wrap-around included.
    - A random source [() => number] is the sequence of the values it will
      return, [nat -> Q], together with the number of values consumed so
      far, which every function that calls [random()] returns updated.
    - The caller-owned, mutable [ShuffleState] is passed in and returned. *)

From Stdlib Require Import ZArith QArith Qround Qminmax Lia Lqa.
From stdpp Require Import base list list_numbers strings.

Local Open Scope Z_scope.

(** ** 32-bit integer operators of JavaScript *)

Module Int32.

Definition two32 : Z := 4294967296.
Definition two31 : Z := 2147483648.

(** [ToUint32]: the value modulo 2^32, in [0, 2^32). *)
Definition ToUint32 (z : Z) : Z := z mod two32.

(** [ToInt32]: the value modulo 2^32, in [-2^31, 2^31). *)
Definition ToInt32 (z : Z) : Z :=
  let u := z mod two32 in
  if u <? two31 then u else u - two32.

(** [Math.imul(a, b)] *)
Definition imul (a b : Z) : Z := ToInt32 (ToInt32 a * ToInt32 b).

(** [a ^ b] *)
Definition xor (a b : Z) : Z := Z.lxor (ToInt32 a) (ToInt32 b).

(** [a | b] *)
Definition or (a b : Z) : Z := Z.lor (ToInt32 a) (ToInt32 b).

(** [a >>> k] *)
Definition ushr (a k : Z) : Z := Z.shiftr (ToUint32 a) (k mod 32).

End Int32.

(** ** Numbers and seeds *)

(** A JavaScript number as far as [hashSeed] distinguishes them: finite, or
    one of the three values for which [Number.isFinite] is false. *)
Inductive number : Type :=
  | Finite (q : Q)
  | NaN
  | PosInfinity
  | NegInfinity.

(** A string is the list of its UTF-16 code units ([charCodeAt]). *)
Definition text : Type := list Z.

Definition code_units (s : string) : text :=
  (fun a => Z.of_nat (Ascii.nat_of_ascii a)) <$> String.list_ascii_of_string s.

Inductive seed : Type :=
  | SeedText (t : text)
  | SeedNumber (n : number).

(** [String(seed)] for the seeds that reach the hashing loop. *)
Definition seed_text (s : seed) : text :=
  match s with
  | SeedText t => t
  | SeedNumber NaN => code_units "NaN"
  | SeedNumber PosInfinity => code_units "Infinity"
  | SeedNumber NegInfinity => code_units "-Infinity"
  | SeedNumber (Finite _) => []
  end.

(** The integer part of a finite number, rounded towards zero, as the
    conversion to a 32-bit integer takes it. *)
Definition truncate (q : Q) : Z := Z.quot (Qnum q) (Zpos (Qden q)).

(** The loop of [hashSeed]:
    [hash ^= text.charCodeAt(i); hash = Math.imul(hash, 16777619)]. *)
Fixpoint hash_loop (hash : Z) (t : text) : Z :=
  match t with
  | [] => hash
  | c :: t' => hash_loop (Int32.imul (Int32.xor hash c) 16777619) t'
  end.

Definition hashSeed (s : seed) : Z :=
  match s with
  | SeedNumber (Finite q) => Int32.ushr (truncate q) 0
  | _ => Int32.ushr (hash_loop 2166136261 (seed_text s)) 0
  end.

(** ** The seeded stream *)

(** The nearest binary64 value of an integer, ties to even: the closure's
    [state] is a JavaScript number that is incremented without wrapping, so
    above 2^53 the addition rounds. *)
Definition round_binary64 (z : Z) : Z :=
  let e := Z.log2 (Z.abs z) - 52 in
  if e <=? 0 then z
  else
    let m := Z.abs z / 2 ^ e in
    let r := Z.abs z mod 2 ^ e in
    let half := 2 ^ (e - 1) in
    let m' := if r <? half then m
              else if half <? r then m + 1
              else if Z.even m then m else m + 1 in
    Z.sgn z * (m' * 2 ^ e).

Definition increment : Z := 0x6d2b79f5.

Definition initial_state (s : seed) : Z :=
  let state := hashSeed s in
  if state =? 0 then increment else state.

(** [state += 0x6d2b79f5] *)
Definition advance (state : Z) : Z := round_binary64 (state + increment).

(** The value returned for the state just advanced. *)
Definition mix (state : Z) : Q :=
  let t := state in
  let t := Int32.imul (Int32.xor t (Int32.ushr t 15)) (Int32.or t 1) in
  let t := Int32.xor t (t + Int32.imul (Int32.xor t (Int32.ushr t 7)) (Int32.or t 61)) in
  Int32.ushr (Int32.xor t (Int32.ushr t 14)) 0 # 4294967296.

(** The state after [n] calls of the returned function. *)
Fixpoint state_after (s : seed) (n : nat) : Z :=
  match n with
  | O => initial_state s
  | S n' => advance (state_after s n')
  end.

(** [createSeededRandom seed]: the value returned by call number [n]
    (counting from 0) of the function it returns. *)
Definition createSeededRandom (s : seed) : nat -> Q :=
  fun n => mix (state_after s (S n)).

(** ** The selection engine *)

Inductive RandomStrategy : Type := uniform | weighted | shuffle.

#[global] Instance RandomStrategy_eq_dec : EqDecision RandomStrategy.
Proof. solve_decision. Defined.

Record ShuffleState : Type := mkShuffleState {
  queue : list Z;
  signature : string
}.

(** The fields of [PickNextIndexParams] that are plain values; [random] and
    [shuffleState] are passed next to the record, and the field [signature]
    is [callSignature] here, to tell it from the one of [ShuffleState]. *)
Record PickNextIndexParams : Type := mkParams {
  total : Z;
  weights : list Q;
  strategy : RandomStrategy;
  previousIndex : option Z;
  avoidImmediateRepeat : bool;
  callSignature : string
}.

(** What [pickNextIndex] can evaluate to: a number, [null], or the
    [undefined] of an array read outside the bounds. *)
Inductive result : Type :=
  | Index (i : Z)
  | Null
  | Undefined.

(** A random source: the values of its successive calls. *)
Definition source : Type := nat -> Q.

(** What a call leaves: the value returned, the number of random values
    consumed so far, and the shuffle state. *)
Definition outcome : Type := result * nat * ShuffleState.

(** [a[k]] *)
Definition read {A} (a : list A) (k : Z) : option A :=
  if k <? 0 then None else a !! Z.to_nat k.

Definition read_result (a : list Z) (k : Z) : result :=
  match read a k with
  | Some i => Index i
  | None => Undefined
  end.

(** [Math.floor(r * n)] *)
Definition floor_times (r : Q) (n : Z) : Z := Qfloor (r * inject_Z n).

(** [[a[i], a[j]] = [a[j], a[i]]]; [None] when a position lies outside the
    array. *)
Definition swap (a : list Z) (i j : Z) : option (list Z) :=
  x ← read a i;
  y ← read a j;
  Some (<[Z.to_nat j := x]> (<[Z.to_nat i := y]> a)).

(** [Array.from({ length: total }, (_, index) => index)] *)
Definition indices (total : Z) : list Z := seqZ 0 total.

(** The loop of [shuffledIndices], from position [i] down to 1; returns the
    array and the number of random values consumed. *)
Fixpoint shuffle_loop (i : nat) (random : source) (pos : nat) (result : list Z)
  : option (list Z * nat) :=
  match i with
  | O => Some (result, pos)
  | S i' =>
      let j := floor_times (random pos) (Z.of_nat i + 1) in
      result' ← swap result (Z.of_nat i) j;
      shuffle_loop i' random (S pos) result'
  end.

Definition shuffledIndices (total : Z) (random : source) (pos : nat)
  : option (list Z * nat) :=
  let result := indices total in
  shuffle_loop (length result - 1) random pos result.

Definition buildCandidates (total : Z) (previousIndex : option Z)
    (avoidImmediateRepeat : bool) : list Z :=
  let all := indices total in
  match previousIndex with
  | Some previous =>
      if negb avoidImmediateRepeat || (total <=? 1) then all
      else List.filter (fun index => negb (index =? previous)) all
  | None => all
  end.

(** [Math.max(0, weights[candidate] ?? 1)] *)
Definition safeWeight (weights : list Q) (candidate : Z) : Q :=
  Qmax 0 (default 1%Q (read weights candidate)).

(** The loop of [pickByWeight]; [None] when it ends without returning. *)
Fixpoint weight_walk (cursor : Q) (candidates : list Z) (safeWeights : list Q)
  : option Z :=
  match candidates, safeWeights with
  | candidate :: candidates', weight :: safeWeights' =>
      let cursor := (cursor - weight)%Q in
      if Qle_bool cursor 0 then Some candidate
      else weight_walk cursor candidates' safeWeights'
  | _, _ => None
  end.

Definition pickByWeight (candidates : list Z) (weights : list Q)
    (random : source) (pos : nat) : result * nat :=
  let safeWeights := List.map (safeWeight weights) candidates in
  let totalWeight := fold_left Qplus safeWeights 0%Q in
  if Qle_bool totalWeight 0 then
    (read_result candidates
       (floor_times (random pos) (Z.of_nat (length candidates))), S pos)
  else
    let cursor := (random pos * totalWeight)%Q in
    match weight_walk cursor candidates safeWeights with
    | Some candidate => (Index candidate, S pos)
    | None => (read_result candidates (Z.of_nat (length candidates) - 1), S pos)
    end.

(** [previousIndex !== null && queue[0] === previousIndex] *)
Definition front_is (q : list Z) (previousIndex : option Z) : bool :=
  match previousIndex, q with
  | Some previous, front :: _ => front =? previous
  | _, _ => false
  end.

(** The shuffle branch of [pickNextIndex], statement by statement. *)

(** [if (shuffleState.signature !== signature) { ... }] *)
Definition adopt_signature (st : ShuffleState) (sig : string) : ShuffleState :=
  if String.eqb (signature st) sig then st
  else {| queue := []; signature := sig |}.

(** [if (shuffleState.queue.length === 0) { ... }] *)
Definition refill (total : Z) (random : source) (pos : nat) (q : list Z)
  : option (list Z * nat) :=
  if (length q =? 0)%nat then shuffledIndices total random pos else Some (q, pos).

(** The corrective swap of the front with a random later position. *)
Definition break_adjacency (p : PickNextIndexParams) (random : source)
    (pos : nat) (q : list Z) : option (list Z * nat) :=
  if avoidImmediateRepeat p && (1 <? length q)%nat && front_is q (previousIndex p) then
    let swapIndex := 1 + floor_times (random pos) (Z.of_nat (length q) - 1) in
    q' ← swap q 0 swapIndex;
    Some (q', S pos)
  else Some (q, pos).

(** The last entry of the bag is the index just shown: a new permutation. *)
Definition restart_cycle (p : PickNextIndexParams) (random : source)
    (pos : nat) (q : list Z) : option (list Z * nat) :=
  if avoidImmediateRepeat p && (length q =? 1)%nat && front_is q (previousIndex p) then
    '(q', pos') ← shuffledIndices (total p) random pos;
    if front_is q' (previousIndex p) && (1 <? length q')%nat then
      q'' ← swap q' 0 1;
      Some (q'', pos')
    else Some (q', pos')
  else Some (q, pos).

(** The queue as it stands just before [shuffleState.queue.shift()]. *)
Definition prepared_queue (p : PickNextIndexParams) (random : source)
    (pos : nat) (st : ShuffleState) : option (list Z * nat) :=
  let st1 := adopt_signature st (callSignature p) in
  '(q2, pos2) ← refill (total p) random pos (queue st1);
  '(q3, pos3) ← break_adjacency p random pos2 q2;
  restart_cycle p random pos3 q3.

(** [const next = queue.shift(); return typeof next === 'number' ? next : null] *)
Definition shift_result (q : list Z) : result :=
  match q with
  | next :: _ => Index next
  | [] => Null
  end.

Definition pickNextIndex (p : PickNextIndexParams) (random : source)
    (pos : nat) (st : ShuffleState) : option outcome :=
  if total p <=? 0 then Some (Null, pos, st)
  else if total p =? 1 then Some (Index 0, pos, st)
  else
    match strategy p with
    | shuffle =>
        '(q, pos') ← prepared_queue p random pos st;
        Some (shift_result q, pos',
              {| queue := tail q;
                 signature := signature (adopt_signature st (callSignature p)) |})
    | other =>
        let candidates :=
          buildCandidates (total p) (previousIndex p) (avoidImmediateRepeat p) in
        if (length candidates =? 0)%nat then
          Some (match previousIndex p with Some i => Index i | None => Null end,
                pos, st)
        else
          match other with
          | weighted =>
              let '(r, pos') := pickByWeight candidates (weights p) random pos in
              Some (r, pos', st)
          | _ =>
              Some (read_result candidates
                      (floor_times (random pos) (Z.of_nat (length candidates))),
                    S pos, st)
          end
    end.

(** A sequence of calls on one random source and one [ShuffleState]. *)
Fixpoint run (calls : list PickNextIndexParams) (random : source) (pos : nat)
    (st : ShuffleState) : option (list result * nat * ShuffleState) :=
  match calls with
  | [] => Some ([], pos, st)
  | p :: calls' =>
      '(r, pos1, st1) ← pickNextIndex p random pos st;
      '(rs, pos2, st2) ← run calls' random pos1 st1;
      Some (r :: rs, pos2, st2)
  end.

(** The contract of a random source: every value lies in [0,1). *)
Definition in_unit (r : Q) : Prop := (0 <= r)%Q /\ (r < 1)%Q.
Definition unit_source (random : source) : Prop := forall n, in_unit (random n).

(** The invariant of the shuffle queue for a pool of [total] indices. *)
Definition queue_ok (total : Z) (q : list Z) : Prop :=
  NoDup q /\ Forall (fun i => 0 <= i < total) q.

(** A call of a cycle: strategy [shuffle] over [n] indices, under the
    signature [sig], without repeat avoidance; the previous index is free. *)
Definition cycle_call (n : Z) (sig : string) (p : PickNextIndexParams) : Prop :=
  total p = n /\ strategy p = shuffle
  /\ avoidImmediateRepeat p = false /\ callSignature p = sig.

(** Two random sources that return the same values, call after call. *)
Definition same_values (random1 random2 : source) : Prop :=
  forall n, (random1 n == random2 n)%Q.

(** ** Concrete calls used to exercise the theorems *)

Definition fresh_state : ShuffleState := {| queue := []; signature := "" |}.

Definition constant (r : Q) : source := fun _ => r.

(** The repository's test "avoids immediate repeats when possible". *)
Definition call_avoid_repeat : PickNextIndexParams :=
  mkParams 2 [1%Q; 1%Q] uniform (Some 0) true "a".

(** The repository's test "supports weighted selection". *)
Definition call_weighted : PickNextIndexParams :=
  mkParams 3 [0%Q; 0%Q; 4%Q] weighted None true "a".

(** One call of the repository's test of the shuffle mode. *)
Definition call_shuffle (previous : option Z) : PickNextIndexParams :=
  mkParams 3 [1%Q; 1%Q; 1%Q] shuffle previous false "x".

(** A shuffle call over a single index, under a signature the state does
    not carry yet. *)
Definition call_shuffle_single : PickNextIndexParams :=
  mkParams 1 [1%Q] shuffle None true "a".

Ltac unit_values :=
  intros; split; [unfold constant, Qle | unfold constant, Qlt]; simpl; lia.

(** ** Definitions used to state further properties *)

(** The same call with another strategy. *)
Definition with_strategy (p : PickNextIndexParams) (s : RandomStrategy)
  : PickNextIndexParams :=
  mkParams (total p) (weights p) s (previousIndex p) (avoidImmediateRepeat p)
    (callSignature p).



(** ** The selection step of the component ([RandomLoadingIndicator.tsx]) *)

(** The component is generic in what a source is: the selection only reads
    [source.weight], which a source may lack (a plain string has none).
    [Source] and [weight] stand for [IndicatorSource] and this field. *)

Inductive IndicatorChangeReason : Type := load_start | interval | source_update.

(** What [onIndicatorChange] receives; [event_source] is [sources[nextIndex]]. *)
Record IndicatorChangeEvent (Source : Type) : Type := mkEvent {
  event_index : Z;
  event_source : option Source;
  event_reason : IndicatorChangeReason
}.
Arguments mkEvent {Source} _ _ _.
Arguments event_index {Source} _.
Arguments event_source {Source} _.
Arguments event_reason {Source} _.

(** The props and derived values that [selectNext] closes over;
    [selectionKey] is the string the component builds from the sources, the
    strategy, the seed and [avoidImmediateRepeat]. *)
Record SelectionProps (Source : Type) : Type := mkSelectionProps {
  sources : list Source;
  strategyProp : RandomStrategy;
  avoidImmediateRepeatProp : bool;
  selectionKey : string
}.
Arguments mkSelectionProps {Source} _ _ _ _.
Arguments sources {Source} _.
Arguments strategyProp {Source} _.
Arguments avoidImmediateRepeatProp {Source} _.
Arguments selectionKey {Source} _.

(** The mutable values [selectNext] works on: [activeIndexRef.current]
    (the state [activeIndex] is set to the same value), [shuffleStateRef.current],
    the number of values taken from [random], and the events passed to
    [onIndicatorChange] so far. *)
Record Selection (Source : Type) : Type := mkSelection {
  activeIndexRef : option Z;
  shuffleStateRef : ShuffleState;
  randomCalls : nat;
  notified : list (IndicatorChangeEvent Source)
}.
Arguments mkSelection {Source} _ _ _ _.
Arguments activeIndexRef {Source} _.
Arguments shuffleStateRef {Source} _.
Arguments randomCalls {Source} _.
Arguments notified {Source} _.

(** The weight of a normalized source: [source.weight ?? 1], and 1 for a string. *)
Definition normalizedWeight {Source : Type} (weight : Source -> option Q)
    (s : Source) : Q :=
  default 1%Q (weight s).

(** [normalizedSources.map((source) => Math.max(0, source.weight))] *)
Definition componentWeights {Source : Type} (weight : Source -> option Q)
    (srcs : list Source) : list Q :=
  List.map (fun s => Qmax 0 (normalizedWeight weight s)) srcs.

(** The parameters [selectNext] passes to [pickNextIndex]. *)
Definition selectionParams {Source : Type} (weight : Source -> option Q)
    (props : SelectionProps Source) (previous : option Z) : PickNextIndexParams :=
  {| total := Z.of_nat (length (sources props));
     weights := componentWeights weight (sources props);
     strategy := strategyProp props;
     previousIndex := previous;
     avoidImmediateRepeat := avoidImmediateRepeatProp props;
     callSignature := selectionKey props |}.

(** [selectNext(reason)].  [None] when [pickNextIndex] leaves the arrays of
    numbers or returns [undefined], which [activeIndexRef] cannot hold. *)
Definition selectNext {Source : Type} (weight : Source -> option Q)
    (props : SelectionProps Source) (random : source)
    (reason : IndicatorChangeReason) (c : Selection Source)
  : option (Selection Source) :=
  if (length (sources props) =? 0)%nat then
    Some (mkSelection None (shuffleStateRef c) (randomCalls c) (notified c))
  else
    '(nextIndex, calls, st) ←
      pickNextIndex (selectionParams weight props (activeIndexRef c)) random
        (randomCalls c) (shuffleStateRef c);
    match nextIndex with
    | Null => Some (mkSelection (activeIndexRef c) st calls (notified c))
    | Index i =>
        if decide (activeIndexRef c = Some i) then
          Some (mkSelection (activeIndexRef c) st calls (notified c))
        else
          Some (mkSelection (Some i) st calls
                  (notified c ++ [mkEvent i (read (sources props) i) reason]))
    | Undefined => None
    end.

(** Successive calls of [selectNext], one per reason, under the same props
    and with nothing else writing the refs in between, as during one loading
    session. *)
Fixpoint selectMany {Source : Type} (weight : Source -> option Q)
    (props : SelectionProps Source) (random : source)
    (reasons : list IndicatorChangeReason) (c : Selection Source)
  : option (Selection Source) :=
  match reasons with
  | [] => Some c
  | reason :: reasons' =>
      c' ← selectNext weight props random reason c;
      selectMany weight props random reasons' c'
  end.

(** The refs of a component that has just been mounted. *)
Definition mounted {Source : Type} : Selection Source :=
  mkSelection None {| queue := []; signature := "" |} 0 [].

(** No index is followed by itself. *)
Fixpoint no_immediate_repeat (l : list Z) : Prop :=
  match l with
  | x :: (y :: _) as l' => x <> y /\ no_immediate_repeat l'
  | _ => True
  end.

(** Three plain string sources, as in the component's tests; strings carry
    no weight. *)
Definition gif_sources : list string := ["a.gif"; "b.gif"; "c.gif"].
Definition no_weight (s : string) : option Q := None.

(** What holds between the calls of [selectNext] under fixed props: the
    queue keeps its invariant, the active index is the one notified last,
    no index was notified twice in a row, and every event carries the source
    at its index. *)
Definition selection_ok {Source : Type} (props : SelectionProps Source)
    (c : Selection Source) : Prop :=
  queue_ok (Z.of_nat (length (sources props))) (queue (shuffleStateRef c))
  /\ activeIndexRef c = last (event_index <$> notified c)
  /\ no_immediate_repeat (event_index <$> notified c)
  /\ Forall (fun e => 0 <= event_index e
                      /\ is_Some (event_source e)
                      /\ event_source e = sources props !! Z.to_nat (event_index e))
       (notified c).


(** ** The effect that follows [loading] ([RandomLoadingIndicator.tsx]) *)

Inductive IdleBehavior : Type := idle_hidden | idle_last.

#[global] Instance IdleBehavior_eq_dec : EqDecision IdleBehavior.
Proof. solve_decision. Defined.

(** The refs the effect works on: those of [selectNext] and [previousRef]. *)
Record EffectRefs (Source : Type) : Type := mkEffectRefs {
  selectionRefs : Selection Source;
  previousLoading : bool;
  previousSelectionKey : string
}.
Arguments mkEffectRefs {Source} _ _ _.
Arguments selectionRefs {Source} _.
Arguments previousLoading {Source} _.
Arguments previousSelectionKey {Source} _.

(** [activeIndexRef.current === null || activeIndexRef.current >= normalizedSources.length] *)
Definition active_is_stale {Source : Type} (props : SelectionProps Source)
    (active : option Z) : bool :=
  match active with
  | None => true
  | Some a => Z.of_nat (length (sources props)) <=? a
  end.

(** One run of the body of the effect, for the current value of [loading]. *)
Definition loadingEffect {Source : Type} (weight : Source -> option Q)
    (props : SelectionProps Source) (random : source) (loading : bool)
    (idleBehavior : IdleBehavior) (r : EffectRefs Source)
  : option (EffectRefs Source) :=
  let selectionChanged :=
    negb (String.eqb (previousSelectionKey r) (selectionKey props)) in
  sel ←
    (if loading then
       if negb (previousLoading r) then
         selectNext weight props random load_start (selectionRefs r)
       else if selectionChanged
               || active_is_stale props (activeIndexRef (selectionRefs r)) then
         selectNext weight props random source_update (selectionRefs r)
       else Some (selectionRefs r)
     else if previousLoading r && bool_decide (idleBehavior = idle_hidden) then
       Some (mkSelection None (shuffleStateRef (selectionRefs r))
               (randomCalls (selectionRefs r)) (notified (selectionRefs r)))
     else Some (selectionRefs r));
  Some (mkEffectRefs sel loading (selectionKey props)).

(** ** The scenarios of the repository's tests *)

Example test_no_sources :
  pickNextIndex (mkParams 0 [] uniform None true "a") (constant (1#2)) 0 fresh_state
  = Some (Null, 0%nat, fresh_state).
Proof. reflexivity. Qed.

Example test_weighted_selection :
  pickNextIndex call_weighted (constant (2#10)) 0 fresh_state
  = Some (Index 2, 1%nat, fresh_state).
Proof. reflexivity. Qed.

Example test_avoids_immediate_repeat :
  pickNextIndex call_avoid_repeat (constant 0) 0 fresh_state
  = Some (Index 1, 1%nat, fresh_state).
Proof. reflexivity. Qed.

Example test_shuffle_walk :
  run [call_shuffle None; call_shuffle (Some 1); call_shuffle (Some 2)]
    (constant (1#10)) 0 fresh_state
  = Some ([Index 1; Index 2; Index 0], 2%nat, {| queue := []; signature := "x" |}).
Proof. reflexivity. Qed.

(** The first value of the stream seeded with the number 1. *)
Example seeded_first_value :
  createSeededRandom (SeedNumber (Finite 1)) 0 = (2693262067 # 4294967296)%Q.
Proof. reflexivity. Qed.

(** ** The seeded stream stays in the unit interval *)

Lemma ToUint32_range (z : Z) : 0 <= Int32.ToUint32 z < Int32.two32.
Proof. unfold Int32.ToUint32, Int32.two32. apply Z.mod_pos_bound. lia. Qed.

Lemma ushr_0 (a : Z) : Int32.ushr a 0 = Int32.ToUint32 a.
Proof. unfold Int32.ushr. change (0 mod 32) with 0. apply Z.shiftr_0_r. Qed.

(** Whatever the state, the mixed value is a 32-bit unsigned integer over 2^32. *)
Lemma mix_unit_interval (state : Z) : in_unit (mix state).
Proof.
  unfold in_unit, mix. cbv zeta.
  set (u := Int32.ushr _ 0).
  assert (Hu : 0 <= u < Int32.two32).
  { subst u. rewrite ushr_0. apply ToUint32_range. }
  unfold Int32.two32 in Hu.
  unfold Qle, Qlt. simpl. lia.
Qed.

(** C8: for every seed, textual or numeric, and every position [n] of the
    stream, the value returned by call [n] of the function made by
    [createSeededRandom] is at least 0 and less than 1. *)
Theorem createSeededRandom_unit_interval (s : seed) (n : nat) :
  (0 <= createSeededRandom s n)%Q /\ (createSeededRandom s n < 1)%Q.
Proof. unfold createSeededRandom. apply mix_unit_interval. Qed.

Lemma createSeededRandom_unit_source (s : seed) : unit_source (createSeededRandom s).
Proof. intros n. unfold createSeededRandom. apply mix_unit_interval. Qed.

(** ** Array reads, scaled draws and swaps *)

Section Arrays.

Lemma floor_times_range (r : Q) (n : Z) :
  in_unit r -> 0 < n -> 0 <= floor_times r n < n.
Proof.
  intros [Hr0 Hr1] Hn. unfold floor_times.
  assert (Hn' : (inject_Z 0 < inject_Z n)%Q) by (rewrite <- Zlt_Qlt; exact Hn).
  change (inject_Z 0) with 0%Q in Hn'.
  split.
  - change 0 with (Qfloor (inject_Z 0)).
    apply Qfloor_resp_le. change (inject_Z 0) with 0%Q.
    apply Qmult_le_0_compat; [exact Hr0 | apply Qlt_le_weak; exact Hn'].
  - rewrite Zlt_Qlt.
    apply Qle_lt_trans with (r * inject_Z n)%Q; [apply Qfloor_le |].
    apply Qlt_le_trans with (1 * inject_Z n)%Q.
    + apply Qmult_lt_compat_r; assumption.
    + rewrite Qmult_1_l. apply Qle_refl.
Qed.

Context {A : Type}.

Lemma read_Some (a : list A) (k : Z) (x : A) :
  read a k = Some x <-> 0 <= k /\ a !! Z.to_nat k = Some x.
Proof.
  unfold read. destruct (Z.ltb_spec k 0); split; try intros [? ?];
    intros; try split; try lia; try congruence; auto.
Qed.

Lemma read_inside (a : list A) (k : Z) :
  0 <= k < Z.of_nat (length a) -> exists x, read a k = Some x /\ x ∈ a.
Proof.
  intros Hk.
  destruct (lookup_lt_is_Some_2 a (Z.to_nat k)) as [x Hx]; [lia |].
  exists x. split.
  - apply read_Some. split; [lia | exact Hx].
  - eapply list_elem_of_lookup_2; exact Hx.
Qed.

End Arrays.

Lemma swap_Permutation (a a' : list Z) (i j : Z) :
  swap a i j = Some a' -> a' ≡ₚ a.
Proof.
  unfold swap.
  destruct (read a i) as [x |] eqn:Hi; [| discriminate].
  destruct (read a j) as [y |] eqn:Hj; [| discriminate].
  simpl. intros [= <-].
  apply read_Some in Hi as [_ Hi]. apply read_Some in Hj as [_ Hj].
  eapply Permutation_insert_swap; eassumption.
Qed.

(** Inside the array the swap is defined. *)
Lemma swap_inside (a : list Z) (i j : Z) :
  0 <= i < Z.of_nat (length a) -> 0 <= j < Z.of_nat (length a) ->
  exists a', swap a i j = Some a' /\ a' ≡ₚ a.
Proof.
  intros Hi Hj.
  destruct (read_inside a i Hi) as [x [Hx _]].
  destruct (read_inside a j Hj) as [y [Hy _]].
  assert (Hs : swap a i j = Some (<[Z.to_nat j := x]> (<[Z.to_nat i := y]> a))).
  { unfold swap. rewrite Hx, Hy. reflexivity. }
  eexists. split; [exact Hs |]. eapply swap_Permutation, Hs.
Qed.

(** ** The Fisher-Yates shuffle *)

Lemma shuffle_loop_Permutation (i : nat) (random : source) (pos pos' : nat)
    (a a' : list Z) :
  shuffle_loop i random pos a = Some (a', pos') -> a' ≡ₚ a /\ pos' = (pos + i)%nat.
Proof.
  revert pos a. induction i as [| i IH]; intros pos a; cbn [shuffle_loop].
  - intros [= <- <-]. split; [reflexivity | lia].
  - destruct (swap a _ _) as [b |] eqn:Hb; [| discriminate]. simpl.
    intros H. apply IH in H as [Hp ->]. split; [| lia].
    rewrite Hp. eapply swap_Permutation, Hb.
Qed.

(** With random values in [0,1) every position drawn lies inside the array,
    so the loop runs to its end. *)
Lemma shuffle_loop_Some (i : nat) (random : source) (pos : nat) (a : list Z) :
  unit_source random -> (i < length a \/ i = 0)%nat ->
  exists a', shuffle_loop i random pos a = Some (a', (pos + i)%nat) /\ a' ≡ₚ a.
Proof.
  intros Hr. revert pos a. induction i as [| i IH]; intros pos a Hi; cbn [shuffle_loop].
  - exists a. split; [| reflexivity]. f_equal. f_equal. lia.
  - destruct Hi as [Hi | Hi]; [| discriminate].
    pose proof (floor_times_range (random pos) (Z.of_nat (S i) + 1) (Hr pos) ltac:(lia))
      as Hj.
    destruct (swap_inside a (Z.of_nat (S i))
                (floor_times (random pos) (Z.of_nat (S i) + 1))) as [b [Hb Hp]];
      [lia | lia |].
    rewrite Hb. simpl.
    destruct (IH (S pos) b) as [a' [Ha' Hp']].
    { left. rewrite (Permutation_length Hp). lia. }
    exists a'. split.
    + rewrite Ha'. f_equal. f_equal. lia.
    + rewrite Hp'. exact Hp.
Qed.

Lemma indices_length (total : Z) : length (indices total) = Z.to_nat total.
Proof. apply length_seqZ. Qed.

Lemma indices_elem_of (total i : Z) : i ∈ indices total <-> 0 <= i < total.
Proof. unfold indices. rewrite elem_of_seqZ. lia. Qed.

Lemma indices_nonempty (total : Z) : 1 <= total -> indices total <> [].
Proof.
  intros Ht H. apply (f_equal length) in H. rewrite indices_length in H.
  simpl in H. lia.
Qed.

Lemma shuffledIndices_Permutation (total : Z) (random : source) (pos pos' : nat)
    (q : list Z) :
  shuffledIndices total random pos = Some (q, pos') -> q ≡ₚ indices total.
Proof. intros H. eapply shuffle_loop_Permutation, H. Qed.

(** [shuffledIndices] returns a permutation of [0,total) and consumes
    [total - 1] random values. *)
Lemma shuffledIndices_Some (total : Z) (random : source) (pos : nat) :
  unit_source random ->
  exists q, shuffledIndices total random pos
            = Some (q, (pos + (Z.to_nat total - 1))%nat)
            /\ q ≡ₚ indices total.
Proof.
  intros Hr. unfold shuffledIndices. rewrite indices_length.
  apply shuffle_loop_Some; [exact Hr |]. rewrite indices_length. lia.
Qed.

(** ** The queue invariant under permutation and [shift] *)

Lemma indices_queue_ok (total : Z) : queue_ok total (indices total).
Proof.
  split; [apply NoDup_seqZ |].
  apply Forall_forall. intros i Hi. apply indices_elem_of, Hi.
Qed.

Lemma queue_ok_Permutation (total : Z) (q q' : list Z) :
  q' ≡ₚ q -> queue_ok total q -> queue_ok total q'.
Proof. intros Hp [Hnd Hall]. split; rewrite Hp; assumption. Qed.

Lemma queue_ok_tail (total : Z) (q : list Z) :
  queue_ok total q -> queue_ok total (tail q).
Proof.
  intros [Hnd Hall]. destruct q as [| x q]; [split; assumption |].
  simpl. split.
  - apply NoDup_cons in Hnd as [_ Hnd]. exact Hnd.
  - apply Forall_cons in Hall as [_ Hall]. exact Hall.
Qed.

Lemma nonempty_Permutation (q q' : list Z) : q' ≡ₚ q -> q <> [] -> q' <> [].
Proof.
  intros Hp Hne ->. apply Hne. apply Permutation_nil_r. symmetry. exact Hp.
Qed.

(** ** Candidate filtering *)

Lemma buildCandidates_elem_of (total : Z) (previous : option Z) (avoid : bool) (x : Z) :
  x ∈ buildCandidates total previous avoid -> 0 <= x < total.
Proof.
  unfold buildCandidates.
  destruct previous as [prev |]; [| apply indices_elem_of].
  destruct (negb avoid || (total <=? 1)); [apply indices_elem_of |].
  rewrite list_elem_of_In, filter_In, <- list_elem_of_In.
  intros [Hx _]. apply indices_elem_of, Hx.
Qed.

Lemma buildCandidates_excludes (total prev : Z) :
  1 < total -> prev ∉ buildCandidates total (Some prev) true.
Proof.
  intros Ht. unfold buildCandidates.
  destruct (Z.leb_spec total 1) as [| _]; [lia |]. simpl.
  rewrite list_elem_of_In, filter_In. intros [_ H].
  rewrite Z.eqb_refl in H. discriminate.
Qed.

Lemma buildCandidates_keeps (total : Z) (previous : option Z) (avoid : bool) (x : Z) :
  0 <= x < total -> previous <> Some x ->
  x ∈ buildCandidates total previous avoid.
Proof.
  intros Hx Hne. unfold buildCandidates.
  destruct previous as [prev |]; [| apply indices_elem_of, Hx].
  destruct (negb avoid || (total <=? 1)); [apply indices_elem_of, Hx |].
  rewrite list_elem_of_In, filter_In, <- list_elem_of_In.
  split; [apply indices_elem_of, Hx |].
  destruct (Z.eqb_spec x prev) as [-> |]; [congruence | reflexivity].
Qed.

(** With two indices or more, filtering out the previous one leaves a candidate. *)
Lemma buildCandidates_nonempty (total : Z) (previous : option Z) (avoid : bool) :
  2 <= total -> buildCandidates total previous avoid <> [].
Proof.
  intros Ht Hnil.
  assert (H : exists x, x ∈ buildCandidates total previous avoid).
  { destruct (decide (previous = Some 0)) as [-> | Hne].
    - exists 1. apply buildCandidates_keeps; [lia | congruence].
    - exists 0. apply buildCandidates_keeps; [lia | exact Hne]. }
  destruct H as [x Hx]. rewrite Hnil in Hx. inversion Hx.
Qed.

(** ** Picking inside the candidates *)

Lemma uniform_pick_elem_of (candidates : list Z) (r : Q) :
  candidates <> [] -> in_unit r ->
  exists x, read_result candidates (floor_times r (Z.of_nat (length candidates))) = Index x
            /\ x ∈ candidates.
Proof.
  intros Hne Hr.
  assert (Hlen : 0 < Z.of_nat (length candidates)).
  { destruct candidates; [congruence | simpl; lia]. }
  destruct (read_inside candidates _ (floor_times_range r _ Hr Hlen)) as [x [Hx Hin]].
  exists x. unfold read_result. rewrite Hx. auto.
Qed.

Lemma last_pick_elem_of (candidates : list Z) :
  candidates <> [] ->
  exists x, read_result candidates (Z.of_nat (length candidates) - 1) = Index x
            /\ x ∈ candidates.
Proof.
  intros Hne.
  assert (Hlen : 0 < Z.of_nat (length candidates)).
  { destruct candidates; [congruence | simpl; lia]. }
  destruct (read_inside candidates (Z.of_nat (length candidates) - 1)) as [x [Hx Hin]];
    [lia |].
  exists x. unfold read_result. rewrite Hx. auto.
Qed.

Lemma weight_walk_elem_of (cursor : Q) (candidates : list Z) (ws : list Q) (x : Z) :
  weight_walk cursor candidates ws = Some x -> x ∈ candidates.
Proof.
  revert cursor ws. induction candidates as [| c cs IH]; intros cursor ws; [discriminate |].
  destruct ws as [| w ws]; [discriminate |]. cbn [weight_walk].
  destruct (Qle_bool (cursor - w) 0).
  - intros [= ->]. left.
  - intros H. right. eapply IH, H.
Qed.

Lemma pickByWeight_elem_of (candidates : list Z) (ws : list Q) (random : source) (pos : nat) :
  candidates <> [] -> in_unit (random pos) ->
  exists x, pickByWeight candidates ws random pos = (Index x, S pos) /\ x ∈ candidates.
Proof.
  intros Hne Hr. unfold pickByWeight.
  destruct (Qle_bool _ 0).
  - destruct (uniform_pick_elem_of candidates (random pos) Hne Hr) as [x [-> Hin]]. eauto.
  - destruct (weight_walk _ _ _) as [c |] eqn:Hw.
    + exists c. split; [reflexivity | eapply weight_walk_elem_of, Hw].
    + destruct (last_pick_elem_of candidates Hne) as [x [-> Hin]]. eauto.
Qed.

(** A uniform or weighted call over two indices or more returns one of its
    candidates, consumes one random value and hands the state back. *)
Lemma pickNextIndex_from_candidates (p : PickNextIndexParams) (random : source)
    (pos : nat) (st : ShuffleState) :
  strategy p <> shuffle -> 2 <= total p -> in_unit (random pos) ->
  exists x, pickNextIndex p random pos st = Some (Index x, S pos, st)
            /\ x ∈ buildCandidates (total p) (previousIndex p) (avoidImmediateRepeat p).
Proof.
  intros Hs Ht Hr. unfold pickNextIndex.
  destruct (Z.leb_spec (total p) 0); [lia |].
  destruct (Z.eqb_spec (total p) 1); [lia |].
  pose proof (buildCandidates_nonempty (total p) (previousIndex p)
                (avoidImmediateRepeat p) Ht) as Hne.
  destruct (buildCandidates _ _ _) as [| c cs] eqn:Hc; [congruence |].
  destruct (strategy p); [| | congruence]; cbn [length Nat.eqb].
  - destruct (uniform_pick_elem_of (c :: cs) (random pos)) as [x [Hx Hin]];
      [discriminate | exact Hr |].
    exists x. simpl in Hx. rewrite Hx. auto.
  - destruct (pickByWeight_elem_of (c :: cs) (weights p) random pos) as [x [Hx Hin]];
      [discriminate | exact Hr |].
    exists x. rewrite Hx. auto.
Qed.

(** A call with at most one index returns at once. *)
Lemma pickNextIndex_small_total (p : PickNextIndexParams) (random : source)
    (pos : nat) (st : ShuffleState) :
  total p <= 1 ->
  pickNextIndex p random pos st
  = Some (if total p <=? 0 then Null else Index 0, pos, st).
Proof.
  intros Ht. unfold pickNextIndex.
  destruct (Z.leb_spec (total p) 0); [reflexivity |].
  destruct (Z.eqb_spec (total p) 1); [reflexivity | lia].
Qed.

(** A uniform or weighted call hands the state back, whatever it returns. *)
Lemma pickNextIndex_plain_state (p : PickNextIndexParams) (random : source)
    (pos : nat) (st : ShuffleState) :
  strategy p <> shuffle ->
  exists r pos', pickNextIndex p random pos st = Some (r, pos', st).
Proof.
  intros Hs. unfold pickNextIndex.
  destruct (total p <=? 0); [eauto |].
  destruct (total p =? 1); [eauto |].
  destruct (strategy p); [| | congruence].
  - destruct (length _ =? 0)%nat; eauto.
  - destruct (length _ =? 0)%nat; [eauto |].
    destruct (pickByWeight _ _ _ _). eauto.
Qed.

(** ** The shuffle queue, statement by statement *)

Lemma adopt_signature_signature (st : ShuffleState) (sig : string) :
  signature (adopt_signature st sig) = sig.
Proof.
  unfold adopt_signature. destruct (String.eqb_spec (signature st) sig); auto.
Qed.

Lemma adopt_signature_queue (st : ShuffleState) (sig : string) :
  queue (adopt_signature st sig) = queue st \/ queue (adopt_signature st sig) = [].
Proof. unfold adopt_signature. destruct (String.eqb _ _); auto. Qed.

Lemma adopt_signature_same (q : list Z) (sig : string) :
  adopt_signature {| queue := q; signature := sig |} sig
  = {| queue := q; signature := sig |}.
Proof. unfold adopt_signature. simpl. rewrite String.eqb_refl. reflexivity. Qed.

Lemma refill_Some (total : Z) (random : source) (pos : nat) (q : list Z) :
  unit_source random ->
  exists q' pos', refill total random pos q = Some (q', pos')
    /\ ((q = [] /\ q' ≡ₚ indices total /\ pos' = (pos + (Z.to_nat total - 1))%nat)
        \/ (q <> [] /\ q' = q /\ pos' = pos)).
Proof.
  intros Hr. unfold refill. destruct q as [| x q]; simpl.
  - destruct (shuffledIndices_Some total random pos Hr) as [q' [Hq' Hp]].
    exists q', (pos + (Z.to_nat total - 1))%nat. split; [exact Hq' |]. left. auto.
  - exists (x :: q), pos. split; [reflexivity |]. right. split; [discriminate | auto].
Qed.

Lemma break_adjacency_Some (p : PickNextIndexParams) (random : source)
    (pos : nat) (q : list Z) :
  unit_source random ->
  exists q' pos', break_adjacency p random pos q = Some (q', pos') /\ q' ≡ₚ q.
Proof.
  intros Hr. unfold break_adjacency.
  destruct (avoidImmediateRepeat p); simpl; [| eauto].
  destruct (Nat.ltb_spec 1 (length q)) as [Hlen |]; simpl; [| eauto].
  destruct (front_is q (previousIndex p)); [| eauto].
  pose proof (floor_times_range (random pos) (Z.of_nat (length q) - 1) (Hr pos)
                ltac:(lia)) as Hj.
  destruct (swap_inside q 0 (1 + floor_times (random pos) (Z.of_nat (length q) - 1)))
    as [q' [Hq' Hp]]; [lia | lia |].
  rewrite Hq'. simpl. eauto.
Qed.

Lemma restart_cycle_Some (p : PickNextIndexParams) (random : source)
    (pos : nat) (q : list Z) :
  unit_source random ->
  exists q' pos', restart_cycle p random pos q = Some (q', pos')
    /\ (q' = q \/ q' ≡ₚ indices (total p)).
Proof.
  intros Hr. unfold restart_cycle.
  destruct (_ && _); [| eauto].
  destruct (shuffledIndices_Some (total p) random pos Hr) as [q' [Hq' Hp]].
  rewrite Hq'. simpl.
  destruct (front_is q' (previousIndex p)); simpl; [| eauto].
  destruct (Nat.ltb_spec 1 (length q')) as [Hlen |]; [| eauto].
  destruct (swap_inside q' 0 1) as [q'' [Hq'' Hp']]; [lia | lia |].
  rewrite Hq''. simpl. exists q'', (pos + (Z.to_nat (total p) - 1))%nat.
  split; [reflexivity |]. right. rewrite Hp'. exact Hp.
Qed.

(** With random values in [0,1) the queue is prepared; it keeps the
    invariant, and with two indices or more it is not empty when [shift] is
    reached. *)
Lemma prepared_queue_Some (p : PickNextIndexParams) (random : source)
    (pos : nat) (st : ShuffleState) :
  unit_source random ->
  exists q pos', prepared_queue p random pos st = Some (q, pos')
    /\ (2 <= total p -> q <> [])
    /\ (queue_ok (total p) (queue st) -> queue_ok (total p) q).
Proof.
  intros Hr. unfold prepared_queue.
  destruct (refill_Some (total p) random pos
              (queue (adopt_signature st (callSignature p))) Hr)
    as [q2 [pos2 [-> H2]]]. simpl.
  destruct (break_adjacency_Some p random pos2 q2 Hr) as [q3 [pos3 [-> H3]]]. simpl.
  destruct (restart_cycle_Some p random pos3 q3 Hr) as [q4 [pos4 [-> H4]]].
  exists q4, pos4. split; [reflexivity |]. split.
  - intros Ht. destruct H4 as [-> | H4].
    + eapply nonempty_Permutation; [exact H3 |].
      destruct H2 as [[_ [H2 _]] | [H2 [-> _]]]; [| exact H2].
      eapply nonempty_Permutation; [exact H2 | apply indices_nonempty; lia].
    + eapply nonempty_Permutation; [exact H4 | apply indices_nonempty; lia].
  - intros Hq. destruct H4 as [-> | H4].
    + eapply queue_ok_Permutation; [exact H3 |].
      destruct H2 as [[_ [H2 _]] | [_ [-> _]]].
      * eapply queue_ok_Permutation; [exact H2 | apply indices_queue_ok].
      * destruct (adopt_signature_queue st (callSignature p)) as [-> | ->];
          [exact Hq | split; constructor].
    + eapply queue_ok_Permutation; [exact H4 | apply indices_queue_ok].
Qed.

(** What a shuffle call over two indices or more does once the queue is
    prepared. *)
Lemma pickNextIndex_shuffle (p : PickNextIndexParams) (random : source)
    (pos pos' : nat) (st : ShuffleState) (q : list Z) :
  2 <= total p -> strategy p = shuffle ->
  prepared_queue p random pos st = Some (q, pos') ->
  pickNextIndex p random pos st
  = Some (shift_result q, pos', {| queue := tail q; signature := callSignature p |}).
Proof.
  intros Ht Hs Hq. unfold pickNextIndex.
  destruct (Z.leb_spec (total p) 0); [lia |].
  destruct (Z.eqb_spec (total p) 1); [lia |].
  rewrite Hs, Hq. simpl. rewrite adopt_signature_signature. reflexivity.
Qed.

(** ** Boundary behaviour and frame conditions of [pickNextIndex] *)

(** C6: with [total <= 0] the call returns [null], the "no selection"
    value, whatever the strategy, weights, previous index and state; with
    [total = 1] it returns index 0, whatever the strategy, previous index
    and [avoidImmediateRepeat].  Neither call draws a random value or
    touches the state. *)
Theorem pickNextIndex_boundary (p : PickNextIndexParams) (random : source)
    (pos : nat) (st : ShuffleState) :
  (total p <= 0 -> pickNextIndex p random pos st = Some (Null, pos, st))
  /\ (total p = 1 -> pickNextIndex p random pos st = Some (Index 0, pos, st)).
Proof.
  split; intros Ht; rewrite pickNextIndex_small_total by lia.
  - destruct (Z.leb_spec (total p) 0); [reflexivity | lia].
  - rewrite Ht. reflexivity.
Qed.

Lemma pickNextIndex_boundary_witness :
  pickNextIndex (mkParams 0 [] uniform None true "a") (constant (1#2)) 0 fresh_state
    = Some (Null, 0%nat, fresh_state)
  /\ pickNextIndex (mkParams 1 [] shuffle (Some 0) true "a") (constant (1#2)) 0 fresh_state
    = Some (Index 0, 0%nat, fresh_state).
Proof.
  split.
  - apply (proj1 (pickNextIndex_boundary
                    (mkParams 0 [] uniform None true "a") (constant (1#2)) 0 fresh_state)).
    simpl. lia.
  - apply (proj2 (pickNextIndex_boundary
                    (mkParams 1 [] shuffle (Some 0) true "a") (constant (1#2)) 0 fresh_state)).
    reflexivity.
Defined.

(** C7: a call with strategy [uniform] or [weighted] returns, and the
    [ShuffleState] it leaves, queue and signature, is the one it received;
    the other inputs are values that a call cannot change.  Only a call with
    strategy [shuffle] can therefore leave another state. *)
Theorem pickNextIndex_frame (p : PickNextIndexParams) (random : source)
    (pos : nat) (st : ShuffleState) :
  strategy p = uniform \/ strategy p = weighted ->
  exists r pos', pickNextIndex p random pos st = Some (r, pos', st).
Proof.
  intros Hs. apply pickNextIndex_plain_state.
  destruct Hs as [-> | ->]; discriminate.
Qed.

Lemma pickNextIndex_frame_witness :
  (strategy call_weighted = uniform \/ strategy call_weighted = weighted)
  /\ exists r pos',
       pickNextIndex call_weighted (constant (2#10)) 0
         {| queue := [2; 0]; signature := "stale" |}
       = Some (r, pos', {| queue := [2; 0]; signature := "stale" |}).
Proof.
  split.
  - right. reflexivity.
  - apply pickNextIndex_frame. right. reflexivity.
Defined.

(** ** Repeat avoidance *)

(** C3: with strategy [uniform] or [weighted], [avoidImmediateRepeat] set,
    more than one index, a previous index and a random source with values in
    [0,1), the call returns an index, and this index is not the previous
    one. *)
Theorem pickNextIndex_avoids_repeat (p : PickNextIndexParams) (random : source)
    (pos : nat) (st : ShuffleState) (previous : Z) :
  strategy p = uniform \/ strategy p = weighted ->
  avoidImmediateRepeat p = true ->
  1 < total p ->
  previousIndex p = Some previous ->
  unit_source random ->
  exists i, pickNextIndex p random pos st = Some (Index i, S pos, st)
            /\ i <> previous.
Proof.
  intros Hs Ha Ht Hp Hr.
  destruct (pickNextIndex_from_candidates p random pos st) as [x [Hx Hin]];
    [destruct Hs as [-> | ->]; discriminate | lia | apply Hr |].
  exists x. split; [exact Hx |].
  intros ->. rewrite Hp, Ha in Hin.
  eapply buildCandidates_excludes; eassumption.
Qed.

Lemma pickNextIndex_avoids_repeat_witness :
  unit_source (constant 0)
  /\ exists i, pickNextIndex call_avoid_repeat (constant 0) 0 fresh_state
               = Some (Index i, 1%nat, fresh_state)
               /\ i <> 0.
Proof.
  split; [unit_values |].
  apply (pickNextIndex_avoids_repeat call_avoid_repeat (constant 0) 0 fresh_state 0).
  - left. reflexivity.
  - reflexivity.
  - simpl. lia.
  - reflexivity.
  - unit_values.
Defined.

(** ** A call over a non-empty pool returns an index *)

(** C10: for a random source with values in [0,1), a call with
    [total >= 1] returns a number; with two indices or more the candidates of
    a uniform or weighted call are not empty and the queue of a shuffle call
    is not empty when its front is removed, so neither fallback is reached;
    [null] is returned exactly when [total <= 0]. *)
Theorem pickNextIndex_returns_index (p : PickNextIndexParams) (random : source)
    (pos : nat) (st : ShuffleState) :
  unit_source random ->
  (1 <= total p ->
   exists i pos' st', pickNextIndex p random pos st = Some (Index i, pos', st'))
  /\ (2 <= total p ->
      buildCandidates (total p) (previousIndex p) (avoidImmediateRepeat p) <> []
      /\ exists q pos', prepared_queue p random pos st = Some (q, pos') /\ q <> [])
  /\ ((exists pos' st', pickNextIndex p random pos st = Some (Null, pos', st'))
      <-> total p <= 0).
Proof.
  intros Hr.
  destruct (prepared_queue_Some p random pos st Hr) as [q [posq [Hq [Hne _]]]].
  assert (Hnum : 1 <= total p ->
            exists i pos' st', pickNextIndex p random pos st = Some (Index i, pos', st')).
  { intros Ht. destruct (decide (total p = 1)) as [H1 | H1].
    - exists 0, pos, st. rewrite pickNextIndex_small_total by lia.
      rewrite H1. reflexivity.
    - destruct (decide (strategy p = shuffle)) as [Hs | Hs].
      + rewrite (pickNextIndex_shuffle p random pos posq st q) by (lia || assumption).
        destruct q as [| x q]; [exfalso; apply Hne; [lia | reflexivity] |].
        simpl. eauto.
      + destruct (pickNextIndex_from_candidates p random pos st) as [x [Hx _]];
          [exact Hs | lia | apply Hr |].
        eauto. }
  split; [exact Hnum |]. split.
  - intros Ht. split; [apply buildCandidates_nonempty, Ht |].
    exists q, posq. auto.
  - split.
    + intros [pos' [st' Hnull]].
      destruct (Z.le_gt_cases (total p) 0) as [| Hpos]; [assumption |].
      destruct Hnum as [i [pos'' [st'' Hi]]]; [lia |]. congruence.
    + intros Ht. exists pos, st. rewrite pickNextIndex_small_total by lia.
      destruct (Z.leb_spec (total p) 0); [reflexivity | lia].
Qed.

Lemma pickNextIndex_returns_index_witness :
  unit_source (constant (1#10))
  /\ exists i pos' st',
       pickNextIndex (call_shuffle None) (constant (1#10)) 0 fresh_state
       = Some (Index i, pos', st').
Proof.
  split; [unit_values |].
  apply (proj1 (pickNextIndex_returns_index
                  (call_shuffle None) (constant (1#10)) 0 fresh_state ltac:(unit_values))).
  simpl. lia.
Defined.

(** ** The invariant of the shuffle queue *)

(** C4: for any strategy, any [total] and a random source with values in
    [0,1), if the queue of the incoming [ShuffleState] holds indices of
    [0,total) without duplicates, then the call returns and the queue of the
    state it leaves again holds indices of [0,total) without duplicates. *)
Theorem pickNextIndex_preserves_queue_ok (p : PickNextIndexParams) (random : source)
    (pos : nat) (st : ShuffleState) :
  unit_source random ->
  queue_ok (total p) (queue st) ->
  exists r pos' st', pickNextIndex p random pos st = Some (r, pos', st')
                     /\ queue_ok (total p) (queue st').
Proof.
  intros Hr Hq.
  destruct (decide (strategy p = shuffle /\ 2 <= total p)) as [[Hs Ht] | Hplain].
  - destruct (prepared_queue_Some p random pos st Hr) as [q [pos' [Hp [_ Hok]]]].
    rewrite (pickNextIndex_shuffle p random pos pos' st q Ht Hs Hp).
    do 3 eexists. split; [reflexivity |]. simpl. apply queue_ok_tail, Hok, Hq.
  - destruct (decide (total p <= 1)) as [Ht | Ht].
    + rewrite pickNextIndex_small_total by exact Ht. eauto.
    + destruct (pickNextIndex_plain_state p random pos st) as [r [pos' Hst]].
      { intros Hs. apply Hplain. split; [exact Hs | lia]. }
      eauto.
Qed.

Lemma pickNextIndex_preserves_queue_ok_witness :
  unit_source (constant (1#10))
  /\ queue_ok 3 [2; 0]
  /\ exists r pos' st',
       pickNextIndex (call_shuffle (Some 1)) (constant (1#10)) 0
         {| queue := [2; 0]; signature := "x" |} = Some (r, pos', st')
       /\ queue_ok 3 (queue st').
Proof.
  assert (Hq : queue_ok 3 [2; 0]).
  { split.
    - apply NoDup_cons. split; [| apply NoDup_singleton].
      intros H. apply list_elem_of_singleton in H. discriminate.
    - repeat constructor; lia. }
  split; [unit_values |]. split; [exact Hq |].
  apply (pickNextIndex_preserves_queue_ok (call_shuffle (Some 1)) (constant (1#10)) 0
           {| queue := [2; 0]; signature := "x" |}).
  - unit_values.
  - exact Hq.
Defined.

(** ** One cycle of the shuffle bag *)

(** Without repeat avoidance only the refill prepares the queue. *)
Lemma prepared_queue_plain (p : PickNextIndexParams) (random : source)
    (pos : nat) (st : ShuffleState) :
  avoidImmediateRepeat p = false ->
  prepared_queue p random pos st
  = refill (total p) random pos (queue (adopt_signature st (callSignature p))).
Proof.
  intros Ha. unfold prepared_queue.
  destruct (refill _ _ _ _) as [[q2 pos2] |]; [| reflexivity]. simpl.
  unfold break_adjacency, restart_cycle. rewrite Ha. reflexivity.
Qed.

(** While the queue lasts, each call of a cycle removes its front and draws
    no random value. *)
Lemma run_drains_queue (n : Z) (sig : string) (random : source) (pos : nat)
    (calls : list PickNextIndexParams) (q : list Z) :
  2 <= n -> Forall (cycle_call n sig) calls -> (length calls <= length q)%nat ->
  run calls random pos {| queue := q; signature := sig |}
  = Some (Index <$> take (length calls) q, pos,
          {| queue := drop (length calls) q; signature := sig |}).
Proof.
  intros Hn Hcalls. revert q.
  induction Hcalls as [| p calls [Ht [Hs [Ha Hsig]]] _ IH]; intros q Hlen.
  - simpl. rewrite drop_0. reflexivity.
  - destruct q as [| x q]; [simpl in Hlen; lia |].
    cbn [run length take drop].
    rewrite (pickNextIndex_shuffle p random pos pos
               {| queue := x :: q; signature := sig |} (x :: q)); [| lia | exact Hs |].
    + simpl. rewrite Hsig, IH by (simpl in Hlen; lia). reflexivity.
    + rewrite prepared_queue_plain by exact Ha.
      rewrite Hsig, adopt_signature_same. reflexivity.
Qed.

(** C2: for [n >= 2] indices and a random source with values in [0,1),
    starting from a state whose queue is empty, [n] consecutive calls with
    strategy [shuffle], one signature and [avoidImmediateRepeat = false]
    return [n] indices without duplicates whose set is [0,n); the queue is
    empty again after them. *)
Theorem shuffle_cycle_is_permutation (n : Z) (sig : string)
    (calls : list PickNextIndexParams) (random : source) (pos : nat)
    (st : ShuffleState) :
  2 <= n ->
  unit_source random ->
  queue st = [] ->
  Z.of_nat (length calls) = n ->
  Forall (cycle_call n sig) calls ->
  exists picks pos' st',
    run calls random pos st = Some (Index <$> picks, pos', st')
    /\ length picks = length calls
    /\ NoDup picks
    /\ (forall i, i ∈ picks <-> 0 <= i < n)
    /\ queue st' = [].
Proof.
  intros Hn Hr Hempty Hlen Hcalls.
  destruct calls as [| p calls]; [simpl in Hlen; lia |].
  apply Forall_cons in Hcalls as [[Ht [Hs [Ha Hsig]]] Hcalls].
  assert (Hq0 : queue (adopt_signature st (callSignature p)) = []).
  { destruct (adopt_signature_queue st (callSignature p)) as [-> | ->]; auto. }
  destruct (refill_Some (total p) random pos [] Hr) as [q [pos' [Hq Hcase]]].
  destruct Hcase as [[_ [Hperm _]] | [Hne _]]; [| congruence].
  rewrite Ht in Hperm.
  assert (Hprep : prepared_queue p random pos st = Some (q, pos')).
  { rewrite prepared_queue_plain, Hq0 by exact Ha. exact Hq. }
  assert (Hqlen : length q = Z.to_nat n).
  { rewrite Hperm. apply indices_length. }
  destruct q as [| x q]; [simpl in Hqlen; lia |].
  exists (x :: q), pos', {| queue := []; signature := sig |}.
  split; [| split; [| split; [| split]]].
  - cbn [run].
    rewrite (pickNextIndex_shuffle p random pos pos' st (x :: q)) by (lia || assumption).
    simpl. rewrite Hsig.
    rewrite (run_drains_queue n sig random pos' calls q Hn Hcalls)
      by (simpl in Hlen, Hqlen; lia).
    simpl. rewrite take_ge, drop_ge by (simpl in Hlen, Hqlen; lia). reflexivity.
  - simpl in *. lia.
  - rewrite Hperm. apply NoDup_seqZ.
  - intros i. rewrite Hperm. apply indices_elem_of.
  - reflexivity.
Qed.

Lemma shuffle_cycle_is_permutation_witness :
  unit_source (constant (1#10))
  /\ exists picks pos' st',
       run [call_shuffle None; call_shuffle (Some 1); call_shuffle (Some 2)]
         (constant (1#10)) 0 fresh_state
       = Some (Index <$> picks, pos', st')
       /\ length picks = 3%nat
       /\ NoDup picks
       /\ (forall i, i ∈ picks <-> 0 <= i < 3)
       /\ queue st' = [].
Proof.
  split; [unit_values |].
  apply (shuffle_cycle_is_permutation 3 "x"
           [call_shuffle None; call_shuffle (Some 1); call_shuffle (Some 2)]
           (constant (1#10)) 0 fresh_state).
  - lia.
  - unit_values.
  - reflexivity.
  - reflexivity.
  - repeat constructor.
Defined.

(** ** When a shuffle call writes the state *)

(** C9, as stated, fails: a call with strategy [shuffle] over one index
    returns before the shuffle branch; the state keeps its queue and does
    not even take the signature of the call. *)
Lemma shuffle_single_index_keeps_state :
  strategy call_shuffle_single = shuffle
  /\ signature fresh_state <> callSignature call_shuffle_single
  /\ pickNextIndex call_shuffle_single (constant (1#2)) 0 fresh_state
     = Some (Index 0, 0%nat, fresh_state).
Proof. split; [reflexivity |]. split; [discriminate | reflexivity]. Qed.

(** C9, amended: for a random source with values in [0,1), a call with
    strategy [shuffle] over two indices or more writes the state: it stores
    the signature of the call and the prepared queue without its front,
    which is the index returned.  A call with [total <= 1] or with another
    strategy leaves the state as it received it. *)
Theorem shuffle_call_writes_state (p : PickNextIndexParams) (random : source)
    (pos : nat) (st : ShuffleState) :
  unit_source random ->
  (strategy p = shuffle -> 2 <= total p ->
   exists next rest pos',
     prepared_queue p random pos st = Some (next :: rest, pos')
     /\ pickNextIndex p random pos st
        = Some (Index next, pos',
                {| queue := rest; signature := callSignature p |}))
  /\ (strategy p <> shuffle \/ total p <= 1 ->
      exists r pos', pickNextIndex p random pos st = Some (r, pos', st)).
Proof.
  intros Hr. split.
  - intros Hs Ht.
    destruct (prepared_queue_Some p random pos st Hr) as [q [pos' [Hq [Hne _]]]].
    destruct q as [| next rest]; [exfalso; apply Hne; [exact Ht | reflexivity] |].
    exists next, rest, pos'. split; [exact Hq |].
    apply (pickNextIndex_shuffle p random pos pos' st (next :: rest) Ht Hs Hq).
  - intros [Hs | Ht].
    + apply pickNextIndex_plain_state, Hs.
    + rewrite pickNextIndex_small_total by exact Ht. eauto.
Qed.

Lemma shuffle_call_writes_state_witness :
  unit_source (constant (1#10))
  /\ exists next rest pos',
       prepared_queue (call_shuffle None) (constant (1#10)) 0 fresh_state
       = Some (next :: rest, pos')
       /\ pickNextIndex (call_shuffle None) (constant (1#10)) 0 fresh_state
          = Some (Index next, pos', {| queue := rest; signature := "x" |}).
Proof.
  split; [unit_values |].
  apply (proj1 (shuffle_call_writes_state
                  (call_shuffle None) (constant (1#10)) 0 fresh_state
                  ltac:(unit_values))).
  - reflexivity.
  - simpl. lia.
Defined.

(** ** Weighted sampling at the draw 0 *)

(** C1 at the draw 0: in the repository's weighted test, with
    [random() = 0] in place of 0.2, the walk stops at once on index 0, whose
    effective weight is 0, although index 2 is eligible with weight 4. *)
Theorem weighted_zero_draw_returns_zero_weight :
  in_unit 0
  /\ buildCandidates (total call_weighted) (previousIndex call_weighted)
       (avoidImmediateRepeat call_weighted) = [0; 1; 2]
  /\ (safeWeight (weights call_weighted) 0 == 0)%Q
  /\ (0 < safeWeight (weights call_weighted) 2)%Q
  /\ pickNextIndex call_weighted (constant 0) 0 fresh_state
     = Some (Index 0, 1%nat, fresh_state).
Proof.
  split; [unit_values |].
  split; [reflexivity |]. split; [reflexivity |]. split; reflexivity.
Qed.

(** ** Weighted sampling at a positive draw *)

Lemma safeWeight_nonneg (ws : list Q) (c : Z) : (0 <= safeWeight ws c)%Q.
Proof. unfold safeWeight. apply Q.le_max_l. Qed.

(** [reduce((sum, weight) => sum + weight, start)] adds the weights to [start]. *)
Lemma fold_left_Qplus (ws : list Q) (start : Q) :
  (fold_left Qplus ws start == start + fold_left Qplus ws 0)%Q.
Proof.
  revert start. induction ws as [| w ws IH]; intros start; simpl.
  - lra.
  - rewrite (IH (start + w)%Q), (IH (0 + w)%Q). lra.
Qed.

Lemma totalWeight_nonneg (ws : list Q) (cs : list Z) :
  (0 <= fold_left Qplus (List.map (safeWeight ws) cs) 0)%Q.
Proof.
  induction cs as [| c cs IH]; simpl; [lra |].
  rewrite fold_left_Qplus. pose proof (safeWeight_nonneg ws c). lra.
Qed.

Lemma totalWeight_positive (ws : list Q) (cs : list Z) (c : Z) :
  c ∈ cs -> (0 < safeWeight ws c)%Q ->
  (0 < fold_left Qplus (List.map (safeWeight ws) cs) 0)%Q.
Proof.
  intros Hin Hc. induction Hin as [c cs | c c' cs Hin IH]; simpl;
    rewrite fold_left_Qplus.
  - pose proof (totalWeight_nonneg ws cs). lra.
  - pose proof (safeWeight_nonneg ws c'). specialize (IH Hc). lra.
Qed.

(** A cursor strictly between 0 and the sum of the weights stops the walk on
    a candidate of positive weight. *)
Lemma weight_walk_positive (ws : list Q) (cs : list Z) (cursor : Q) :
  (0 < cursor)%Q ->
  (cursor < fold_left Qplus (List.map (safeWeight ws) cs) 0)%Q ->
  exists x, weight_walk cursor cs (List.map (safeWeight ws) cs) = Some x
            /\ x ∈ cs /\ (0 < safeWeight ws x)%Q.
Proof.
  revert cursor. induction cs as [| c cs IH]; intros cursor H0 Hsum; simpl in Hsum.
  - lra.
  - rewrite fold_left_Qplus in Hsum. cbn [List.map weight_walk].
    destruct (Qle_bool (cursor - safeWeight ws c) 0) eqn:Hle.
    + apply Qle_bool_iff in Hle. exists c. split; [reflexivity |].
      split; [left | lra].
    + assert (Hgt : (0 < cursor - safeWeight ws c)%Q).
      { apply Qnot_le_lt. intros Hc. apply Qle_bool_iff in Hc. congruence. }
      destruct (IH (cursor - safeWeight ws c)%Q Hgt) as [x [Hx [Hin Hw]]]; [lra |].
      exists x. split; [exact Hx |]. split; [right; exact Hin | exact Hw].
Qed.

(** For a draw strictly between 0 and 1, [pickByWeight] returns a candidate
    of positive effective weight as soon as there is one. *)
Lemma pickByWeight_positive_draw (candidates : list Z) (ws : list Q)
    (random : source) (pos : nat) (c : Z) :
  (0 < random pos)%Q -> (random pos < 1)%Q ->
  c ∈ candidates -> (0 < safeWeight ws c)%Q ->
  exists x, pickByWeight candidates ws random pos = (Index x, S pos)
            /\ x ∈ candidates /\ (0 < safeWeight ws x)%Q.
Proof.
  intros Hr0 Hr1 Hin Hc. unfold pickByWeight.
  pose proof (totalWeight_positive ws candidates c Hin Hc) as Htot.
  set (totalWeight := fold_left Qplus _ 0%Q) in *.
  destruct (Qle_bool totalWeight 0) eqn:Hle.
  { apply Qle_bool_iff in Hle. lra. }
  destruct (weight_walk_positive ws candidates (random pos * totalWeight)%Q)
    as [x [Hx [Hxin Hw]]].
  - apply Qmult_lt_0_compat; assumption.
  - apply Qlt_le_trans with (1 * totalWeight)%Q.
    + apply Qmult_lt_compat_r; assumption.
    + rewrite Qmult_1_l. apply Qle_refl.
  - rewrite Hx. eauto.
Qed.

(** ** Runs depend on the random source through its values only *)

Lemma floor_times_ext (r1 r2 : Q) (n : Z) :
  (r1 == r2)%Q -> floor_times r1 n = floor_times r2 n.
Proof. intros H. unfold floor_times. rewrite H. reflexivity. Qed.

Section SameValues.

Variables random1 random2 : source.
Hypothesis Hsame : same_values random1 random2.

Lemma shuffle_loop_ext (i pos : nat) (a : list Z) :
  shuffle_loop i random1 pos a = shuffle_loop i random2 pos a.
Proof.
  revert pos a. induction i as [| i IH]; intros pos a; cbn [shuffle_loop];
    [reflexivity |].
  rewrite (floor_times_ext _ _ _ (Hsame pos)).
  destruct (swap a _ _) as [b |]; simpl; [apply IH | reflexivity].
Qed.

Lemma shuffledIndices_ext (total : Z) (pos : nat) :
  shuffledIndices total random1 pos = shuffledIndices total random2 pos.
Proof. apply shuffle_loop_ext. Qed.

Lemma weight_walk_ext (c1 c2 : Q) (cs : list Z) (ws : list Q) :
  (c1 == c2)%Q -> weight_walk c1 cs ws = weight_walk c2 cs ws.
Proof.
  revert c1 c2 ws. induction cs as [| c cs IH]; intros c1 c2 ws Hc; [reflexivity |].
  destruct ws as [| w ws]; [reflexivity |]. cbn [weight_walk].
  assert (Hc' : (c1 - w == c2 - w)%Q) by (rewrite Hc; reflexivity).
  rewrite (Qleb_comp _ _ Hc' 0%Q 0%Q (Qeq_refl 0)).
  destruct (Qle_bool (c2 - w) 0); [reflexivity | apply IH, Hc'].
Qed.

Lemma pickByWeight_ext (cs : list Z) (ws : list Q) (pos : nat) :
  pickByWeight cs ws random1 pos = pickByWeight cs ws random2 pos.
Proof.
  unfold pickByWeight.
  rewrite (floor_times_ext _ _ _ (Hsame pos)).
  destruct (Qle_bool _ 0); [reflexivity |].
  rewrite (weight_walk_ext (random1 pos * _)%Q (random2 pos * _)%Q)
    by (rewrite (Hsame pos); reflexivity).
  reflexivity.
Qed.

Lemma prepared_queue_ext (p : PickNextIndexParams) (pos : nat) (st : ShuffleState) :
  prepared_queue p random1 pos st = prepared_queue p random2 pos st.
Proof.
  unfold prepared_queue, refill, break_adjacency, restart_cycle.
  rewrite shuffledIndices_ext.
  destruct (if (length _ =? 0)%nat then _ else _) as [[q2 pos2] |]; [| reflexivity].
  simpl. rewrite (floor_times_ext _ _ _ (Hsame pos2)).
  destruct (if _ && _ && front_is q2 _ then _ else _) as [[q3 pos3] |];
    [| reflexivity].
  simpl. rewrite shuffledIndices_ext. reflexivity.
Qed.

Lemma pickNextIndex_ext (p : PickNextIndexParams) (pos : nat) (st : ShuffleState) :
  pickNextIndex p random1 pos st = pickNextIndex p random2 pos st.
Proof.
  unfold pickNextIndex.
  rewrite prepared_queue_ext, pickByWeight_ext, (floor_times_ext _ _ _ (Hsame pos)).
  reflexivity.
Qed.

Lemma run_ext (calls : list PickNextIndexParams) (pos : nat) (st : ShuffleState) :
  run calls random1 pos st = run calls random2 pos st.
Proof.
  revert pos st. induction calls as [| p calls IH]; intros pos st; [reflexivity |].
  cbn [run]. rewrite pickNextIndex_ext.
  destruct (pickNextIndex p random2 pos st) as [[[r pos1] st1] |]; [| reflexivity].
  simpl. rewrite IH. reflexivity.
Qed.

End SameValues.

(** Every call returns when the random source keeps to [0,1). *)
Lemma pickNextIndex_Some (p : PickNextIndexParams) (random : source) (pos : nat)
    (st : ShuffleState) :
  unit_source random -> exists out, pickNextIndex p random pos st = Some out.
Proof.
  intros Hr.
  destruct (decide (strategy p = shuffle /\ 2 <= total p)) as [[Hs Ht] | Hplain].
  - destruct (prepared_queue_Some p random pos st Hr) as [q [pos' [Hp _]]].
    rewrite (pickNextIndex_shuffle p random pos pos' st q Ht Hs Hp). eauto.
  - destruct (decide (total p <= 1)) as [Ht | Ht].
    + rewrite pickNextIndex_small_total by exact Ht. eauto.
    + destruct (pickNextIndex_plain_state p random pos st) as [r [pos' Hst]]; [| eauto].
      intros Hs. apply Hplain. split; [exact Hs | lia].
Qed.

Lemma run_Some (calls : list PickNextIndexParams) (random : source) (pos : nat)
    (st : ShuffleState) :
  unit_source random -> exists out, run calls random pos st = Some out.
Proof.
  intros Hr. revert pos st. induction calls as [| p calls IH]; intros pos st.
  - simpl. eauto.
  - cbn [run].
    destruct (pickNextIndex_Some p random pos st Hr) as [[[r pos1] st1] ->]. simpl.
    destruct (IH pos1 st1) as [[[rs pos2] st2] ->]. simpl. eauto.
Qed.

(** ** Determinism *)

(** Seeds with the same hash start the same stream. *)
Lemma createSeededRandom_hash (seed1 seed2 : seed) :
  hashSeed seed1 = hashSeed seed2 ->
  same_values (createSeededRandom seed1) (createSeededRandom seed2).
Proof.
  intros Hh n. unfold createSeededRandom.
  assert (Hst : forall k, state_after seed1 k = state_after seed2 k).
  { induction k as [| k IH]; simpl; [| rewrite IH; reflexivity].
    unfold initial_state. rewrite Hh. reflexivity. }
  rewrite Hst. reflexivity.
Qed.

(** C5: two engine instances made from the same seed and driven with the
    same sequence of calls (totals, weights, strategies, previous indices,
    signatures) from the same initial [ShuffleState] both return, with the
    same sequence of results, the same number of random values consumed and
    the same final [ShuffleState]. *)
Theorem seeded_runs_deterministic (seed1 seed2 : seed)
    (calls1 calls2 : list PickNextIndexParams) (st1 st2 : ShuffleState) :
  seed1 = seed2 -> calls1 = calls2 -> st1 = st2 ->
  exists results pos' st',
    run calls1 (createSeededRandom seed1) 0 st1 = Some (results, pos', st')
    /\ run calls2 (createSeededRandom seed2) 0 st2 = Some (results, pos', st').
Proof.
  intros Hseed <- <-.
  destruct (run_Some calls1 (createSeededRandom seed1) 0 st1
              (createSeededRandom_unit_source seed1)) as [[[results pos'] st'] Hrun].
  exists results, pos', st'. split; [exact Hrun |].
  rewrite <- Hrun. symmetry. apply run_ext.
  apply createSeededRandom_hash. rewrite Hseed. reflexivity.
Qed.

Lemma seeded_runs_deterministic_witness :
  exists results pos' st',
    run [call_shuffle None; call_weighted; call_shuffle (Some 0)]
      (createSeededRandom (SeedText (code_units "demo-seed"))) 0 fresh_state
    = Some (results, pos', st')
    /\ run [call_shuffle None; call_weighted; call_shuffle (Some 0)]
         (createSeededRandom (SeedText (code_units "demo-seed"))) 0 fresh_state
       = Some (results, pos', st').
Proof.
  apply (seeded_runs_deterministic
           (SeedText (code_units "demo-seed")) (SeedText (code_units "demo-seed"))
           [call_shuffle None; call_weighted; call_shuffle (Some 0)]
           [call_shuffle None; call_weighted; call_shuffle (Some 0)]
           fresh_state fresh_state); reflexivity.
Defined.

(** * Further properties of the engine *)

(** ** The front of the queue after a swap *)

Lemma front_is_head (q : list Z) (previous : Z) :
  front_is q (Some previous) = true <-> head q = Some previous.
Proof.
  destruct q as [| x q]; simpl; [split; discriminate |].
  rewrite Z.eqb_eq. split; congruence.
Qed.

(** Swapping the front with a later position of a queue without duplicates
    puts another index at the front. *)
Lemma swap_front (a a' : list Z) (k : Z) :
  NoDup a -> 1 <= k -> swap a 0 k = Some a' ->
  exists x y, head a = Some x /\ head a' = Some y /\ y <> x.
Proof.
  intros Hnd Hk. unfold swap.
  destruct a as [| x rest]; [discriminate |].
  change (read (x :: rest) 0) with (Some x). simpl.
  destruct (read (x :: rest) k) as [y |] eqn:Hy; [| discriminate].
  simpl. intros [= <-].
  apply read_Some in Hy as [_ Hy].
  destruct (Z.to_nat k) as [| m] eqn:Hm; [lia |].
  simpl in Hy. exists x, y. split; [reflexivity |]. split; [reflexivity |].
  apply NoDup_cons in Hnd as [Hx _]. intros ->. apply Hx.
  eapply list_elem_of_lookup_2, Hy.
Qed.

Lemma break_adjacency_front (p : PickNextIndexParams) (random : source)
    (pos : nat) (q : list Z) (previous : Z) :
  unit_source random -> avoidImmediateRepeat p = true ->
  previousIndex p = Some previous -> NoDup q ->
  exists q' pos', break_adjacency p random pos q = Some (q', pos')
    /\ q' ≡ₚ q
    /\ (front_is q' (Some previous) = true -> length q' = 1%nat).
Proof.
  intros Hr Ha Hp Hnd. unfold break_adjacency. rewrite Ha, Hp.
  destruct (Nat.ltb_spec 1 (length q)) as [Hlen | Hlen]; cbn [andb].
  - destruct (front_is q (Some previous)) eqn:Hf.
    + pose proof (floor_times_range (random pos) (Z.of_nat (length q) - 1) (Hr pos)
                    ltac:(lia)) as Hj.
      destruct (swap_inside q 0 (1 + floor_times (random pos) (Z.of_nat (length q) - 1)))
        as [q' [Hq' Hperm]]; [lia | lia |].
      rewrite Hq'. simpl. exists q', (S pos). split; [reflexivity |].
      split; [exact Hperm |]. intros Hf'.
      destruct (swap_front q q'
                  (1 + floor_times (random pos) (Z.of_nat (length q) - 1))
                  Hnd ltac:(lia) Hq') as [x [y [Hx [Hy Hne]]]].
      apply front_is_head in Hf, Hf'. congruence.
    + exists q, pos. split; [reflexivity |]. split; [reflexivity |]. congruence.
  - exists q, pos. split; [reflexivity |]. split; [reflexivity |].
    intros Hf. destruct q as [| x q]; [discriminate |]. simpl in *. lia.
Qed.

Lemma restart_cycle_skip (p : PickNextIndexParams) (random : source)
    (pos : nat) (q : list Z) :
  avoidImmediateRepeat p = false \/ length q <> 1%nat
  \/ front_is q (previousIndex p) = false ->
  restart_cycle p random pos q = Some (q, pos).
Proof.
  intros H. unfold restart_cycle.
  destruct (avoidImmediateRepeat p); cbn [andb]; [| reflexivity].
  destruct (Nat.eqb_spec (length q) 1); cbn [andb]; [| reflexivity].
  destruct (front_is q (previousIndex p)); [| reflexivity].
  destruct H as [H | [H | H]]; congruence.
Qed.

Lemma break_adjacency_skip (p : PickNextIndexParams) (random : source)
    (pos : nat) (q : list Z) :
  avoidImmediateRepeat p = false \/ (length q <= 1)%nat
  \/ front_is q (previousIndex p) = false ->
  break_adjacency p random pos q = Some (q, pos).
Proof.
  intros H. unfold break_adjacency.
  destruct (avoidImmediateRepeat p); cbn [andb]; [| reflexivity].
  destruct (Nat.ltb_spec 1 (length q)); cbn [andb]; [| reflexivity].
  destruct (front_is q (previousIndex p)); [| reflexivity].
  destruct H as [H | [H | H]]; (congruence || lia).
Qed.

(** When the last entry of the bag is the index just shown, the new
    permutation starts with another index. *)
Lemma restart_cycle_front (p : PickNextIndexParams) (random : source)
    (pos : nat) (q : list Z) (previous : Z) :
  unit_source random -> avoidImmediateRepeat p = true ->
  previousIndex p = Some previous -> 2 <= total p ->
  (front_is q (Some previous) = true -> length q = 1%nat) ->
  exists q' pos', restart_cycle p random pos q = Some (q', pos')
    /\ front_is q' (Some previous) = false
    /\ ((q' = q /\ front_is q (Some previous) = false)
        \/ (q' ≡ₚ indices (total p) /\ q = [previous])).
Proof.
  intros Hr Ha Hp Ht Hone.
  destruct (front_is q (Some previous)) eqn:Hf.
  - specialize (Hone eq_refl).
    assert (Hq : q = [previous]).
    { destruct q as [| x [| y q]]; try discriminate.
      apply front_is_head in Hf. simpl in Hf. congruence. }
    unfold restart_cycle. rewrite Ha, Hp, Hf, Hone. cbn [andb Nat.eqb].
    destruct (shuffledIndices_Some (total p) random pos Hr) as [q1 [Hq1 Hperm]].
    rewrite Hq1. cbn [mbind option_bind].
    assert (Hnd : NoDup q1) by (rewrite Hperm; apply NoDup_seqZ).
    assert (Hlen : (1 < length q1)%nat).
    { rewrite Hperm, indices_length. lia. }
    destruct (front_is q1 (Some previous)) eqn:Hf1; cbn [andb].
    + destruct (Nat.ltb_spec 1 (length q1)) as [_ |]; [| lia].
      destruct (swap_inside q1 0 1) as [q2 [Hq2 Hperm2]]; [lia | lia |].
      rewrite Hq2. cbn [mbind option_bind].
      exists q2, (pos + (Z.to_nat (total p) - 1))%nat.
      split; [reflexivity |]. split.
      * destruct (swap_front q1 q2 1 Hnd ltac:(lia) Hq2) as [x [y [Hx [Hy Hne]]]].
        apply front_is_head in Hf1.
        destruct (front_is q2 (Some previous)) eqn:Hf2; [| reflexivity].
        apply front_is_head in Hf2. congruence.
      * right. split; [rewrite Hperm2; exact Hperm | exact Hq].
    + exists q1, (pos + (Z.to_nat (total p) - 1))%nat.
      split; [reflexivity |]. split; [exact Hf1 |]. right. auto.
  - rewrite restart_cycle_skip by (rewrite Hp; auto).
    exists q, pos. split; [reflexivity |]. split; [exact Hf |]. left. auto.
Qed.

Lemma queue_ok_nil (total : Z) : queue_ok total [].
Proof. split; constructor. Qed.

(** The prepared queue of a call that avoids repeats, in full: it is not
    empty, its front is not the previous index, and it is a permutation
    either of the queue it started from or of [0,total). *)
Lemma prepared_queue_avoiding (p : PickNextIndexParams) (random : source)
    (pos : nat) (st : ShuffleState) (previous : Z) :
  unit_source random -> avoidImmediateRepeat p = true ->
  previousIndex p = Some previous -> 2 <= total p ->
  NoDup (queue (adopt_signature st (callSignature p))) ->
  exists x rest pos', prepared_queue p random pos st = Some (x :: rest, pos')
    /\ x <> previous
    /\ (x :: rest ≡ₚ queue (adopt_signature st (callSignature p))
        \/ x :: rest ≡ₚ indices (total p)).
Proof.
  intros Hr Ha Hp Ht Hnd. unfold prepared_queue.
  destruct (refill_Some (total p) random pos
              (queue (adopt_signature st (callSignature p))) Hr)
    as [q2 [pos2 [-> H2]]]. simpl.
  assert (Hnd2 : NoDup q2).
  { destruct H2 as [[_ [H2 _]] | [_ [-> _]]]; [| exact Hnd].
    rewrite H2. apply NoDup_seqZ. }
  assert (Hne2 : q2 <> []).
  { destruct H2 as [[_ [H2 _]] | [H2 [-> _]]]; [| exact H2].
    eapply nonempty_Permutation; [exact H2 | apply indices_nonempty; lia]. }
  assert (Hsrc : q2 ≡ₚ queue (adopt_signature st (callSignature p))
                 \/ q2 ≡ₚ indices (total p)).
  { destruct H2 as [[_ [H2 _]] | [_ [-> _]]]; auto. }
  destruct (break_adjacency_front p random pos2 q2 previous Hr Ha Hp Hnd2)
    as [q3 [pos3 [-> [H3 Hone]]]]. simpl.
  destruct (restart_cycle_front p random pos3 q3 previous Hr Ha Hp Ht Hone)
    as [q4 [pos4 [-> [Hf4 H4]]]].
  assert (Hne4 : q4 <> []).
  { destruct H4 as [[-> _] | [H4 _]].
    - eapply nonempty_Permutation; [exact H3 | exact Hne2].
    - eapply nonempty_Permutation; [exact H4 | apply indices_nonempty; lia]. }
  destruct q4 as [| x rest]; [congruence |].
  exists x, rest, pos4. split; [reflexivity |]. split.
  - intros ->. simpl in Hf4. rewrite Z.eqb_refl in Hf4. discriminate.
  - destruct H4 as [[-> _] | [H4 _]]; [| auto].
    destruct Hsrc as [Hs | Hs]; [left | right]; rewrite H3; exact Hs.
Qed.

Lemma adopt_signature_cases (st : ShuffleState) (sig : string) :
  (signature st = sig /\ adopt_signature st sig = st)
  \/ (signature st <> sig
      /\ adopt_signature st sig = {| queue := []; signature := sig |}).
Proof.
  unfold adopt_signature. destruct (String.eqb_spec (signature st) sig); auto.
Qed.

(** ** Repeat avoidance in the shuffle strategy *)

(** X1: with strategy [shuffle], [avoidImmediateRepeat] set, two indices or
    more, a previous index and a random source with values in [0,1), a call
    on a queue without duplicates returns an index other than the previous
    one.  The queue only matters when its signature is the one of the call;
    otherwise it is discarded. *)
Theorem shuffle_avoids_repeat (p : PickNextIndexParams) (random : source)
    (pos : nat) (st : ShuffleState) (previous : Z) :
  strategy p = shuffle ->
  avoidImmediateRepeat p = true ->
  2 <= total p ->
  previousIndex p = Some previous ->
  unit_source random ->
  (signature st = callSignature p -> NoDup (queue st)) ->
  exists i pos' rest,
    pickNextIndex p random pos st
    = Some (Index i, pos', {| queue := rest; signature := callSignature p |})
    /\ i <> previous.
Proof.
  intros Hs Ha Ht Hp Hr Hq.
  assert (Hnd : NoDup (queue (adopt_signature st (callSignature p)))).
  { destruct (adopt_signature_cases st (callSignature p)) as [[He ->] | [_ ->]];
      [auto | constructor]. }
  destruct (prepared_queue_avoiding p random pos st previous Hr Ha Hp Ht Hnd)
    as [x [rest [pos' [Hprep [Hne _]]]]].
  exists x, pos', rest. split; [| exact Hne].
  apply (pickNextIndex_shuffle p random pos pos' st (x :: rest) Ht Hs Hprep).
Qed.

Lemma shuffle_avoids_repeat_witness :
  unit_source (constant (9#10))
  /\ exists i pos' rest,
       pickNextIndex (mkParams 3 [] shuffle (Some 2) true "x") (constant (9#10)) 0
         fresh_state
       = Some (Index i, pos', {| queue := rest; signature := "x" |})
       /\ i <> 2.
Proof.
  split; [unit_values |].
  apply (shuffle_avoids_repeat (mkParams 3 [] shuffle (Some 2) true "x")
           (constant (9#10)) 0 fresh_state 2).
  - reflexivity.
  - reflexivity.
  - simpl. lia.
  - reflexivity.
  - unit_values.
  - intros _. constructor.
Defined.

(** X2: when the last entry of the bag is the index just shown (the queue
    is that single index, under the signature of the call), the call does
    not emit it: it starts a new permutation of [0,total) and returns its
    front, which is another index. *)
Theorem shuffle_restarts_on_boundary_collision (p : PickNextIndexParams)
    (random : source) (pos : nat) (st : ShuffleState) (previous : Z) :
  strategy p = shuffle ->
  avoidImmediateRepeat p = true ->
  2 <= total p ->
  previousIndex p = Some previous ->
  unit_source random ->
  signature st = callSignature p ->
  queue st = [previous] ->
  exists i pos' rest,
    pickNextIndex p random pos st
    = Some (Index i, pos', {| queue := rest; signature := callSignature p |})
    /\ i <> previous
    /\ i :: rest ≡ₚ indices (total p).
Proof.
  intros Hs Ha Ht Hp Hr Hsig Hq.
  assert (Hadopt : adopt_signature st (callSignature p) = st).
  { destruct (adopt_signature_cases st (callSignature p)) as [[_ H] | [H _]];
      [exact H | congruence]. }
  destruct (prepared_queue_avoiding p random pos st previous Hr Ha Hp Ht)
    as [x [rest [pos' [Hprep [Hne Hperm]]]]].
  { rewrite Hadopt, Hq. apply NoDup_singleton. }
  exists x, pos', rest. split; [| split; [exact Hne |]].
  - apply (pickNextIndex_shuffle p random pos pos' st (x :: rest) Ht Hs Hprep).
  - destruct Hperm as [Hperm | Hperm]; [| exact Hperm].
    rewrite Hadopt, Hq in Hperm.
    apply Permutation_singleton_r in Hperm. congruence.
Qed.

Lemma shuffle_restarts_on_boundary_collision_witness :
  unit_source (constant (1#10))
  /\ exists i pos' rest,
       pickNextIndex (mkParams 3 [] shuffle (Some 1) true "x") (constant (1#10)) 0
         {| queue := [1]; signature := "x" |}
       = Some (Index i, pos', {| queue := rest; signature := "x" |})
       /\ i <> 1
       /\ i :: rest ≡ₚ indices 3.
Proof.
  split; [unit_values |].
  apply (shuffle_restarts_on_boundary_collision
           (mkParams 3 [] shuffle (Some 1) true "x") (constant (1#10)) 0
           {| queue := [1]; signature := "x" |} 1).
  - reflexivity.
  - reflexivity.
  - simpl. lia.
  - reflexivity.
  - unit_values.
  - reflexivity.
  - reflexivity.
Defined.

(** ** What a shuffle call takes from the bag *)

(** X3: a shuffle call under the signature the state carries, on a queue
    that is not empty, returns one entry of the queue and leaves the others:
    the index returned followed by the new queue is a permutation of the old
    queue.  This holds when the queue has two entries or more, or repeat
    avoidance is off, or the front is not the previous index. *)
Theorem shuffle_takes_from_queue (p : PickNextIndexParams) (random : source)
    (pos : nat) (st : ShuffleState) :
  strategy p = shuffle ->
  2 <= total p ->
  unit_source random ->
  signature st = callSignature p ->
  queue st <> [] ->
  (2 <= length (queue st))%nat \/ avoidImmediateRepeat p = false
  \/ front_is (queue st) (previousIndex p) = false ->
  exists i pos' rest,
    pickNextIndex p random pos st
    = Some (Index i, pos', {| queue := rest; signature := callSignature p |})
    /\ i :: rest ≡ₚ queue st.
Proof.
  intros Hs Ht Hr Hsig Hne Hcase.
  assert (Hadopt : adopt_signature st (callSignature p) = st).
  { destruct (adopt_signature_cases st (callSignature p)) as [[_ H] | [H _]];
      [exact H | congruence]. }
  assert (Hprep : exists q pos', prepared_queue p random pos st = Some (q, pos')
                                 /\ q ≡ₚ queue st).
  { unfold prepared_queue. rewrite Hadopt. unfold refill.
    destruct (queue st) as [| x0 q0] eqn:Hq; [congruence |].
    cbn [length Nat.eqb mbind option_bind].
    destruct (break_adjacency_Some p random pos (x0 :: q0) Hr) as [q3 [pos3 [Hb H3]]].
    destruct (decide (2 <= length (x0 :: q0))%nat) as [Hlen | Hlen].
    - rewrite Hb. cbn [mbind option_bind].
      rewrite restart_cycle_skip.
      + eauto.
      + right. left. rewrite (Permutation_length H3). lia.
    - assert (Hskip : avoidImmediateRepeat p = false
                      \/ front_is (x0 :: q0) (previousIndex p) = false).
      { destruct Hcase as [H | [H | H]]; [lia | auto | auto]. }
      rewrite break_adjacency_skip
        by (destruct Hskip; [left | right; right]; assumption).
      cbn [mbind option_bind]. rewrite restart_cycle_skip.
      + eauto.
      + destruct Hskip; [left | right; right]; assumption. }
  destruct Hprep as [q [pos' [Hprep Hperm]]].
  destruct q as [| x rest].
  { exfalso. apply Hne. apply Permutation_nil_r. symmetry. exact Hperm. }
  exists x, pos', rest. split; [| exact Hperm].
  apply (pickNextIndex_shuffle p random pos pos' st (x :: rest) Ht Hs Hprep).
Qed.

Lemma shuffle_takes_from_queue_witness :
  unit_source (constant (1#2))
  /\ exists i pos' rest,
       pickNextIndex (mkParams 4 [] shuffle (Some 3) true "x") (constant (1#2)) 0
         {| queue := [3; 0; 2]; signature := "x" |}
       = Some (Index i, pos', {| queue := rest; signature := "x" |})
       /\ i :: rest ≡ₚ [3; 0; 2].
Proof.
  split; [unit_values |].
  apply (shuffle_takes_from_queue (mkParams 4 [] shuffle (Some 3) true "x")
           (constant (1#2)) 0 {| queue := [3; 0; 2]; signature := "x" |}).
  - reflexivity.
  - simpl. lia.
  - unit_values.
  - reflexivity.
  - discriminate.
  - left. simpl. lia.
Defined.

(** X4: a shuffle call under a signature the state does not carry discards
    the queue, whatever it holds: the index returned followed by the new
    queue is a permutation of [0,total), and the state takes the signature
    of the call. *)
Theorem signature_change_restarts_bag (p : PickNextIndexParams) (random : source)
    (pos : nat) (st : ShuffleState) :
  strategy p = shuffle ->
  2 <= total p ->
  unit_source random ->
  signature st <> callSignature p ->
  exists i pos' rest,
    pickNextIndex p random pos st
    = Some (Index i, pos', {| queue := rest; signature := callSignature p |})
    /\ i :: rest ≡ₚ indices (total p).
Proof.
  intros Hs Ht Hr Hsig.
  assert (Hadopt : queue (adopt_signature st (callSignature p)) = []).
  { destruct (adopt_signature_cases st (callSignature p)) as [[H _] | [_ ->]];
      [congruence | reflexivity]. }
  assert (Hprep : exists q pos', prepared_queue p random pos st = Some (q, pos')
                                 /\ q ≡ₚ indices (total p)).
  { unfold prepared_queue. rewrite Hadopt.
    destruct (refill_Some (total p) random pos [] Hr) as [q2 [pos2 [-> H2]]].
    destruct H2 as [[_ [H2 _]] | [H2 _]]; [| congruence].
    cbn [mbind option_bind].
    destruct (break_adjacency_Some p random pos2 q2 Hr) as [q3 [pos3 [-> H3]]].
    cbn [mbind option_bind]. rewrite restart_cycle_skip.
    - exists q3, pos3. split; [reflexivity |]. rewrite H3. exact H2.
    - right. left. rewrite (Permutation_length H3), (Permutation_length H2),
        indices_length. lia. }
  destruct Hprep as [q [pos' [Hprep Hperm]]].
  destruct q as [| x rest].
  { exfalso. apply (indices_nonempty (total p)); [lia |].
    apply Permutation_nil_r. symmetry. exact Hperm. }
  exists x, pos', rest. split; [| exact Hperm].
  apply (pickNextIndex_shuffle p random pos pos' st (x :: rest) Ht Hs Hprep).
Qed.

Lemma signature_change_restarts_bag_witness :
  unit_source (constant (1#10))
  /\ exists i pos' rest,
       pickNextIndex (call_shuffle (Some 1)) (constant (1#10)) 0
         {| queue := [7; 7; -1]; signature := "stale" |}
       = Some (Index i, pos', {| queue := rest; signature := "x" |})
       /\ i :: rest ≡ₚ indices 3.
Proof.
  split; [unit_values |].
  apply (signature_change_restarts_bag (call_shuffle (Some 1)) (constant (1#10)) 0
           {| queue := [7; 7; -1]; signature := "stale" |}).
  - reflexivity.
  - simpl. lia.
  - unit_values.
  - discriminate.
Defined.

(** ** The index returned lies in the pool *)

Lemma adopt_signature_idem (st : ShuffleState) (sig : string) :
  adopt_signature (adopt_signature st sig) sig = adopt_signature st sig.
Proof.
  destruct (adopt_signature_cases st sig) as [[He ->] | [_ ->]].
  - unfold adopt_signature. rewrite He, String.eqb_refl. reflexivity.
  - apply adopt_signature_same.
Qed.

Lemma prepared_queue_adopted (p : PickNextIndexParams) (random : source)
    (pos : nat) (st : ShuffleState) :
  prepared_queue p random pos (adopt_signature st (callSignature p))
  = prepared_queue p random pos st.
Proof. unfold prepared_queue. rewrite adopt_signature_idem. reflexivity. Qed.

(** The index returned lies in the pool, and the queue keeps its
    invariant when it had it. *)
Lemma pickNextIndex_index (p : PickNextIndexParams) (random : source)
    (pos : nat) (st : ShuffleState) :
  unit_source random ->
  1 <= total p ->
  (strategy p = shuffle -> signature st = callSignature p ->
   queue_ok (total p) (queue st)) ->
  exists i pos' st',
    pickNextIndex p random pos st = Some (Index i, pos', st')
    /\ 0 <= i < total p.
Proof.
  intros Hr Ht Hq.
  destruct (decide (total p = 1)) as [H1 | H1].
  { exists 0, pos, st. rewrite pickNextIndex_small_total by lia.
    rewrite H1. split; [reflexivity | lia]. }
  destruct (decide (strategy p = shuffle)) as [Hs | Hs].
  - assert (Hok : queue_ok (total p) (queue (adopt_signature st (callSignature p)))).
    { destruct (adopt_signature_cases st (callSignature p)) as [[He ->] | [_ ->]];
        [auto | apply queue_ok_nil]. }
    destruct (prepared_queue_Some p random pos
                (adopt_signature st (callSignature p)) Hr)
      as [q [pos' [Hprep [Hne Hok']]]].
    rewrite prepared_queue_adopted in Hprep.
    specialize (Hne ltac:(lia)). specialize (Hok' Hok).
    destruct q as [| x rest]; [congruence |].
    exists x, pos', {| queue := rest; signature := callSignature p |}. split.
    + apply (pickNextIndex_shuffle p random pos pos' st (x :: rest));
        [lia | exact Hs | exact Hprep].
    + destruct Hok' as [_ Hall]. apply Forall_cons in Hall as [Hx _]. exact Hx.
  - destruct (pickNextIndex_from_candidates p random pos st Hs ltac:(lia) (Hr pos))
      as [x [Hx Hin]].
    exists x, (S pos), st. split; [exact Hx |].
    eapply buildCandidates_elem_of, Hin.
Qed.

(** X5: for a random source with values in [0,1) and a pool of one index
    or more, the call returns an index of [0,total).  For the strategy
    [shuffle] this needs the queue to hold indices of [0,total) without
    duplicates, and only when it is kept, that is when the state carries the
    signature of the call. *)
Theorem pickNextIndex_in_range (p : PickNextIndexParams) (random : source)
    (pos : nat) (st : ShuffleState) :
  unit_source random ->
  1 <= total p ->
  (strategy p = shuffle -> signature st = callSignature p ->
   queue_ok (total p) (queue st)) ->
  exists i pos' st',
    pickNextIndex p random pos st = Some (Index i, pos', st')
    /\ 0 <= i < total p.
Proof.
  intros Hr Ht Hq.
  destruct (pickNextIndex_index p random pos st Hr Ht Hq)
    as [i [pos' [st' [Hpick Hi]]]].
  exists i, pos', st'. split; [exact Hpick | exact Hi].
Qed.

Lemma pickNextIndex_in_range_witness :
  unit_source (constant (7#10))
  /\ exists i pos' st',
       pickNextIndex call_weighted (constant (7#10)) 0 fresh_state
       = Some (Index i, pos', st')
       /\ 0 <= i < 3.
Proof.
  split; [unit_values |].
  apply (pickNextIndex_in_range call_weighted (constant (7#10)) 0 fresh_state).
  - unit_values.
  - simpl. lia.
  - discriminate.
Defined.

(** ** [shuffledIndices] on its own *)

(** X6: for a random source with values in [0,1), [shuffledIndices]
    returns, for any [total], a list of [total] indices (none when
    [total <= 0]) that holds every index of [0,total) exactly once, and it
    draws [total - 1] random values (none when [total <= 1]). *)
Theorem shuffledIndices_is_permutation (total : Z) (random : source) (pos : nat) :
  unit_source random ->
  exists q,
    shuffledIndices total random pos = Some (q, (pos + Z.to_nat (total - 1))%nat)
    /\ length q = Z.to_nat total
    /\ NoDup q
    /\ forall i, i ∈ q <-> 0 <= i < total.
Proof.
  intros Hr.
  destruct (shuffledIndices_Some total random pos Hr) as [q [Hq Hperm]].
  exists q. split.
  - rewrite Hq. f_equal. f_equal. lia.
  - split; [rewrite Hperm; apply indices_length |].
    split; [rewrite Hperm; apply NoDup_seqZ |].
    intros i. rewrite Hperm. apply indices_elem_of.
Qed.

Lemma shuffledIndices_is_permutation_witness :
  unit_source (constant (1#3))
  /\ exists q,
       shuffledIndices 5 (constant (1#3)) 0 = Some (q, (0 + Z.to_nat (5 - 1))%nat)
       /\ length q = Z.to_nat 5
       /\ NoDup q
       /\ forall i, i ∈ q <-> 0 <= i < 5.
Proof.
  split; [unit_values |].
  apply (shuffledIndices_is_permutation 5 (constant (1#3)) 0). unit_values.
Defined.

(** ** [buildCandidates] on its own *)

(** X7: [buildCandidates] returns, without duplicates, exactly the indices
    of [0,total) other than the previous one when [avoidImmediateRepeat] is
    set and there are two indices or more, and all of [0,total) otherwise;
    with one index or more the list is never empty. *)
Theorem buildCandidates_spec (total : Z) (previous : option Z) (avoid : bool) :
  NoDup (buildCandidates total previous avoid)
  /\ (forall x, x ∈ buildCandidates total previous avoid
                <-> 0 <= x < total
                    /\ ~ (avoid = true /\ 1 < total /\ previous = Some x))
  /\ (1 <= total -> buildCandidates total previous avoid <> []).
Proof.
  split; [| split].
  - unfold buildCandidates. destruct previous as [prev |]; [| apply NoDup_seqZ].
    destruct (negb avoid || (total <=? 1)); [apply NoDup_seqZ |].
    apply NoDup_ListNoDup, List.NoDup_filter, NoDup_ListNoDup, NoDup_seqZ.
  - intros x. split.
    + intros Hin. split; [eapply buildCandidates_elem_of, Hin |].
      intros [-> [Ht ->]]. eapply buildCandidates_excludes; eassumption.
    + intros [Hx Hnot]. unfold buildCandidates.
      destruct previous as [prev |]; [| apply indices_elem_of, Hx].
      destruct avoid; simpl; [| apply indices_elem_of, Hx].
      destruct (Z.leb_spec total 1); [apply indices_elem_of, Hx |].
      rewrite list_elem_of_In, filter_In, <- list_elem_of_In.
      split; [apply indices_elem_of, Hx |].
      destruct (Z.eqb_spec x prev) as [-> |]; [| reflexivity].
      exfalso. apply Hnot. auto with zarith.
  - intros Ht. destruct (decide (total = 1)) as [-> | H1].
    + unfold buildCandidates. destruct previous; [| discriminate].
      rewrite orb_true_r. discriminate.
    + apply buildCandidates_nonempty. lia.
Qed.

Lemma buildCandidates_spec_witness :
  1 <= 3 /\ buildCandidates 3 (Some 1) true <> [].
Proof.
  split; [lia |].
  apply (proj2 (proj2 (buildCandidates_spec 3 (Some 1) true))). lia.
Defined.

(** ** Weighted sampling *)





Lemma totalWeight_zero (ws : list Q) (cs : list Z) :
  (forall c, c ∈ cs -> (safeWeight ws c == 0)%Q) ->
  (fold_left Qplus (List.map (safeWeight ws) cs) 0 == 0)%Q.
Proof.
  induction cs as [| c cs IH]; intros Hall; simpl; [reflexivity |].
  rewrite fold_left_Qplus, IH, (Hall c).
  - lra.
  - left.
  - intros c' Hc'. apply Hall. right. exact Hc'.
Qed.

(** X9: when every candidate has a weight in the vector and none of these
    weights is positive, a call with strategy [weighted] returns what the
    same call with strategy [uniform] returns, draw for draw. *)
Theorem weighted_without_positive_weight_is_uniform (p : PickNextIndexParams)
    (random : source) (pos : nat) (st : ShuffleState) :
  strategy p = weighted ->
  (forall c,
     c ∈ buildCandidates (total p) (previousIndex p) (avoidImmediateRepeat p) ->
     exists w, read (weights p) c = Some w /\ (w <= 0)%Q) ->
  pickNextIndex p random pos st
  = pickNextIndex (with_strategy p uniform) random pos st.
Proof.
  intros Hs Hw. unfold pickNextIndex, with_strategy. simpl. rewrite Hs.
  destruct (total p <=? 0); [reflexivity |].
  destruct (total p =? 1); [reflexivity |].
  destruct (length _ =? 0)%nat; [reflexivity |].
  unfold pickByWeight.
  set (cs := buildCandidates _ _ _) in *.
  assert (Hzero : (fold_left Qplus (List.map (safeWeight (weights p)) cs) 0 == 0)%Q).
  { apply totalWeight_zero. intros c Hc. destruct (Hw c Hc) as [w [Hread Hle]].
    unfold safeWeight. rewrite Hread. simpl. apply Q.max_l. exact Hle. }
  assert (Hle : Qle_bool (fold_left Qplus (List.map (safeWeight (weights p)) cs) 0%Q)
                  0%Q = true).
  { apply Qle_bool_iff. rewrite Hzero. apply Qle_refl. }
  rewrite Hle. reflexivity.
Qed.

Lemma weighted_without_positive_weight_is_uniform_witness :
  pickNextIndex (mkParams 3 [0%Q; (-2)%Q; 0%Q] weighted (Some 1) true "a")
    (constant (6#10)) 0 fresh_state
  = pickNextIndex
      (with_strategy (mkParams 3 [0%Q; (-2)%Q; 0%Q] weighted (Some 1) true "a") uniform)
      (constant (6#10)) 0 fresh_state.
Proof.
  apply (weighted_without_positive_weight_is_uniform
           (mkParams 3 [0%Q; (-2)%Q; 0%Q] weighted (Some 1) true "a")
           (constant (6#10)) 0 fresh_state).
  - reflexivity.
  - intros c Hc. simpl in Hc.
    apply list_elem_of_In in Hc. simpl in Hc.
    destruct Hc as [<- | [<- | []]].
    + exists 0%Q. split; [reflexivity | unfold Qle; simpl; lia].
    + exists 0%Q. split; [reflexivity | unfold Qle; simpl; lia].
Defined.

(** * Further properties of the seeded stream *)

(** ** The 32-bit conversions *)

Lemma ToInt32_congruent (z : Z) : Int32.ToInt32 z mod Int32.two32 = z mod Int32.two32.
Proof.
  unfold Int32.ToInt32, Int32.two32, Int32.two31.
  destruct (z mod 4294967296 <? 2147483648).
  - apply Z.mod_mod. lia.
  - replace (z mod 4294967296 - 4294967296)
      with (z mod 4294967296 + (-1) * 4294967296) by lia.
    rewrite Z.mod_add by lia. apply Z.mod_mod. lia.
Qed.

Lemma ToUint32_mod (z : Z) : Int32.ToUint32 (z mod Int32.two32) = Int32.ToUint32 z.
Proof. unfold Int32.ToUint32, Int32.two32. apply Z.mod_mod. lia. Qed.

Lemma ToInt32_mod (z : Z) : Int32.ToInt32 (z mod Int32.two32) = Int32.ToInt32 z.
Proof.
  unfold Int32.ToInt32, Int32.two32. rewrite Z.mod_mod by lia. reflexivity.
Qed.

Lemma ToInt32_small (z : Z) : 0 <= z < Int32.two31 -> Int32.ToInt32 z = z.
Proof.
  unfold Int32.ToInt32, Int32.two32, Int32.two31. intros Hz.
  rewrite Z.mod_small by lia.
  destruct (Z.ltb_spec z 2147483648); [reflexivity | lia].
Qed.

Lemma lxor_mod_two32 (x y : Z) :
  Z.lxor x y mod Int32.two32
  = Z.lxor (x mod Int32.two32) (y mod Int32.two32).
Proof.
  unfold Int32.two32. change 4294967296 with (2 ^ 32).
  apply Z.bits_inj'. intros i Hi.
  rewrite Z.lxor_spec, !Z.testbit_mod_pow2, Z.lxor_spec by lia.
  destruct (i <? 32); reflexivity.
Qed.

Lemma ToUint32_imul (a b : Z) :
  Int32.ToUint32 (Int32.imul a b)
  = (Int32.ToUint32 a * Int32.ToUint32 b) mod Int32.two32.
Proof.
  unfold Int32.imul, Int32.ToUint32. rewrite ToInt32_congruent.
  rewrite Z.mul_mod by (unfold Int32.two32; lia).
  rewrite !ToInt32_congruent. reflexivity.
Qed.

Lemma ToUint32_xor (a b : Z) :
  Int32.ToUint32 (Int32.xor a b) = Z.lxor (Int32.ToUint32 a) (Int32.ToUint32 b).
Proof.
  unfold Int32.xor, Int32.ToUint32.
  rewrite lxor_mod_two32, !ToInt32_congruent. reflexivity.
Qed.

(** ** The state of the closure *)

Lemma hashSeed_range (s : seed) : 0 <= hashSeed s < Int32.two32.
Proof.
  unfold hashSeed. destruct s as [t | [q | | |]]; rewrite ushr_0;
    apply ToUint32_range.
Qed.

Lemma initial_state_range (s : seed) : 1 <= initial_state s < Int32.two32.
Proof.
  unfold initial_state. pose proof (hashSeed_range s) as Hh.
  unfold Int32.two32 in *.
  destruct (Z.eqb_spec (hashSeed s) 0); [unfold increment; lia | lia].
Qed.

Lemma round_binary64_exact (z : Z) : 0 <= z < 2 ^ 53 -> round_binary64 z = z.
Proof.
  intros Hz. unfold round_binary64.
  assert (Hlog : Z.log2 (Z.abs z) - 52 <= 0).
  { rewrite Z.abs_eq by lia. destruct (decide (z = 0)) as [-> | Hne]; [simpl; lia |].
    assert (Z.log2 z < 53) by (apply Z.log2_lt_pow2; lia). lia. }
  destruct (Z.leb_spec (Z.log2 (Z.abs z) - 52) 0); [reflexivity | lia].
Qed.

Lemma state_after_hash (seed1 seed2 : seed) (k : nat) :
  hashSeed seed1 = hashSeed seed2 -> state_after seed1 k = state_after seed2 k.
Proof.
  intros Hh. induction k as [| k IH]; simpl; [| rewrite IH; reflexivity].
  unfold initial_state. rewrite Hh. reflexivity.
Qed.

(** While the state stays below 2^53 the additions are exact. *)
Lemma state_after_exact (s : seed) (k : nat) :
  Z.of_nat k <= 4917756 ->
  state_after s k = initial_state s + Z.of_nat k * increment.
Proof.
  pose proof (initial_state_range s) as Hi. unfold Int32.two32 in Hi.
  induction k as [| k IH]; intros Hk; simpl state_after; [lia |].
  rewrite IH by lia. unfold advance.
  rewrite round_binary64_exact; unfold increment in *; lia.
Qed.

(** The value mixed from a state depends on its low 32 bits only. *)
Lemma mix_mod (state : Z) : mix (state mod Int32.two32) = mix state.
Proof.
  unfold mix, Int32.xor, Int32.or, Int32.ushr.
  rewrite !ToInt32_mod, !ToUint32_mod. reflexivity.
Qed.

(** X10: during the first 4,917,756 calls the state of the closure is
    exactly the initial state plus the increment times the number of calls,
    without binary64 rounding, and the value returned depends on the state
    through its low 32 bits only: the stream is the one of the generator
    that keeps its state in 32 bits. *)
Theorem seeded_stream_wraps (s : seed) (n : nat) :
  Z.of_nat n < 4917756 ->
  state_after s (S n) = initial_state s + (Z.of_nat n + 1) * increment
  /\ createSeededRandom s n
     = mix ((initial_state s + (Z.of_nat n + 1) * increment) mod Int32.two32).
Proof.
  intros Hn.
  assert (Hst : state_after s (S n) = initial_state s + (Z.of_nat n + 1) * increment).
  { rewrite state_after_exact by lia. lia. }
  split; [exact Hst |].
  unfold createSeededRandom. rewrite Hst, mix_mod. reflexivity.
Qed.

Lemma seeded_stream_wraps_witness :
  state_after (SeedNumber (Finite 1)) 3 = initial_state (SeedNumber (Finite 1)) + (2 + 1) * increment
  /\ createSeededRandom (SeedNumber (Finite 1)) 2
     = mix ((initial_state (SeedNumber (Finite 1)) + (2 + 1) * increment) mod Int32.two32).
Proof.
  apply (seeded_stream_wraps (SeedNumber (Finite 1)) 2). simpl. lia.
Defined.

(** X11: the stream of a finite numeric seed depends only on its integer
    part modulo 2^32: two finite numbers whose integer parts, rounded
    towards zero, are congruent modulo 2^32 seed the same stream. *)
Theorem numeric_seeds_collide (q1 q2 : Q) (n : nat) :
  truncate q1 mod Int32.two32 = truncate q2 mod Int32.two32 ->
  createSeededRandom (SeedNumber (Finite q1)) n
  = createSeededRandom (SeedNumber (Finite q2)) n.
Proof.
  intros Hq. unfold createSeededRandom.
  rewrite (state_after_hash (SeedNumber (Finite q1)) (SeedNumber (Finite q2))).
  - reflexivity.
  - simpl. rewrite !ushr_0. exact Hq.
Qed.

Lemma numeric_seeds_collide_witness :
  truncate (7 # 2) mod Int32.two32 = truncate (inject_Z (3 - 4294967296)) mod Int32.two32
  /\ createSeededRandom (SeedNumber (Finite (7 # 2))) 5
     = createSeededRandom (SeedNumber (Finite (inject_Z (3 - 4294967296)))) 5.
Proof.
  split; [reflexivity |].
  apply (numeric_seeds_collide (7 # 2) (inject_Z (3 - 4294967296)) 5). reflexivity.
Defined.

(** X12: a seed whose hash is 0 does not start from the state 0: it gets
    the state 0x6d2b79f5, and so the stream of the numeric seed
    1831565813. *)
Theorem zero_hash_seed_stream (s : seed) (n : nat) :
  hashSeed s = 0 ->
  initial_state s = increment
  /\ createSeededRandom s n
     = createSeededRandom (SeedNumber (Finite (inject_Z increment))) n.
Proof.
  intros Hh.
  assert (Hinit : forall s', initial_state s' = increment ->
                             forall k, state_after s' k = state_after s k).
  { intros s' Hs' k. induction k as [| k IH]; simpl; [| rewrite IH; reflexivity].
    rewrite Hs'. unfold initial_state. rewrite Hh. reflexivity. }
  split.
  - unfold initial_state. rewrite Hh. reflexivity.
  - unfold createSeededRandom.
    rewrite (Hinit (SeedNumber (Finite (inject_Z increment)))); reflexivity.
Qed.

Lemma zero_hash_seed_stream_witness :
  hashSeed (SeedNumber (Finite 0)) = 0
  /\ initial_state (SeedNumber (Finite 0)) = increment
  /\ createSeededRandom (SeedNumber (Finite 0)) 4
     = createSeededRandom (SeedNumber (Finite (inject_Z increment))) 4.
Proof.
  split; [reflexivity |].
  apply (zero_hash_seed_stream (SeedNumber (Finite 0)) 4). reflexivity.
Defined.

(** ** The hash of a text *)

Lemma hash_loop_app (h : Z) (t : text) (c : Z) :
  hash_loop h (t ++ [c]) = Int32.imul (Int32.xor (hash_loop h t) c) 16777619.
Proof.
  revert h. induction t as [| c' t IH]; intros h; simpl; [reflexivity | apply IH].
Qed.

(** X13: the hash of a text is the 32-bit FNV-1a hash of its code units,
    computed on unsigned integers: the empty text hashes to 2166136261, and
    appending a code unit [c] maps the hash [h] to
    [((h xor c) * 16777619) mod 2^32].  The signed intermediate values of
    [^] and [Math.imul] do not show. *)
Theorem hashSeed_text_fnv1a (t : text) (c : Z) :
  0 <= c < 65536 ->
  hashSeed (SeedText []) = 2166136261
  /\ hashSeed (SeedText (t ++ [c]))
     = (Z.lxor (hashSeed (SeedText t)) c * 16777619) mod Int32.two32.
Proof.
  intros Hc. split; [reflexivity |].
  unfold hashSeed, seed_text. rewrite !ushr_0, hash_loop_app.
  rewrite ToUint32_imul, ToUint32_xor.
  replace (Int32.ToUint32 c) with c
    by (unfold Int32.ToUint32, Int32.two32; rewrite Z.mod_small; lia).
  reflexivity.
Qed.

Lemma hashSeed_text_fnv1a_witness :
  0 <= 100 < 65536
  /\ hashSeed (SeedText []) = 2166136261
  /\ hashSeed (SeedText (code_units "demo-see" ++ [100]))
     = (Z.lxor (hashSeed (SeedText (code_units "demo-see"))) 100 * 16777619)
       mod Int32.two32.
Proof.
  split; [lia |].
  apply (hashSeed_text_fnv1a (code_units "demo-see") 100). lia.
Defined.

(** * The selection step of the component *)

(** One call that avoids repeats, over two indices or more, on a queue that
    keeps its invariant: an index of the pool other than the previous one,
    and the invariant again. *)
Lemma pickNextIndex_step (p : PickNextIndexParams) (random : source)
    (pos : nat) (st : ShuffleState) :
  unit_source random -> 2 <= total p -> avoidImmediateRepeat p = true ->
  queue_ok (total p) (queue st) ->
  exists i pos' st',
    pickNextIndex p random pos st = Some (Index i, pos', st')
    /\ 0 <= i < total p
    /\ previousIndex p <> Some i
    /\ queue_ok (total p) (queue st').
Proof.
  intros Hr Ht Ha Hq.
  destruct (decide (strategy p = shuffle)) as [Hs | Hs].
  - assert (Hok : queue_ok (total p) (queue (adopt_signature st (callSignature p)))).
    { destruct (adopt_signature_cases st (callSignature p)) as [[_ ->] | [_ ->]];
        [exact Hq | apply queue_ok_nil]. }
    assert (Hprep : exists x rest pos',
               prepared_queue p random pos st = Some (x :: rest, pos')
               /\ previousIndex p <> Some x
               /\ queue_ok (total p) (x :: rest)).
    { destruct (previousIndex p) as [previous |] eqn:Hp.
      - destruct (prepared_queue_avoiding p random pos st previous Hr Ha Hp Ht)
          as [x [rest [pos' [Hprep [Hne Hperm]]]]]; [apply Hok |].
        exists x, rest, pos'. split; [exact Hprep |]. split; [congruence |].
        destruct Hperm as [Hperm | Hperm].
        + eapply queue_ok_Permutation; [exact Hperm | exact Hok].
        + eapply queue_ok_Permutation; [exact Hperm | apply indices_queue_ok].
      - destruct (prepared_queue_Some p random pos
                    (adopt_signature st (callSignature p)) Hr)
          as [q [pos' [Hprep [Hne Hok']]]].
        rewrite prepared_queue_adopted in Hprep.
        specialize (Hne Ht). specialize (Hok' Hok).
        destruct q as [| x rest]; [congruence |].
        exists x, rest, pos'. split; [exact Hprep |]. split; [discriminate | exact Hok']. }
    destruct Hprep as [x [rest [pos' [Hprep [Hne Hok']]]]].
    exists x, pos', {| queue := rest; signature := callSignature p |}.
    split; [apply (pickNextIndex_shuffle p random pos pos' st (x :: rest) Ht Hs Hprep) |].
    split; [| split; [exact Hne |]].
    + destruct Hok' as [_ Hall]. apply Forall_cons in Hall as [Hx _]. exact Hx.
    + apply (queue_ok_tail (total p) (x :: rest) Hok').
  - destruct (pickNextIndex_from_candidates p random pos st Hs Ht (Hr pos))
      as [x [Hx Hin]].
    exists x, (S pos), st. split; [exact Hx |].
    split; [eapply buildCandidates_elem_of, Hin |]. split; [| exact Hq].
    intros Hp. rewrite Hp, Ha in Hin.
    eapply buildCandidates_excludes; [| exact Hin]. lia.
Qed.

Section Component.

Context {Source : Type}.
Variable weight : Source -> option Q.
Variable props : SelectionProps Source.
Variable random : source.

Hypothesis Hrandom : unit_source random.
Hypothesis Hsources : (2 <= length (sources props))%nat.
Hypothesis Havoid : avoidImmediateRepeatProp props = true.

Lemma selectNext_step (reason : IndicatorChangeReason) (c : Selection Source) :
  queue_ok (Z.of_nat (length (sources props))) (queue (shuffleStateRef c)) ->
  exists i s calls st,
    selectNext weight props random reason c
    = Some (mkSelection (Some i) st calls
              (notified c ++ [mkEvent i (Some s) reason]))
    /\ 0 <= i
    /\ sources props !! Z.to_nat i = Some s
    /\ activeIndexRef c <> Some i
    /\ queue_ok (Z.of_nat (length (sources props))) (queue st).
Proof.
  intros Hq. unfold selectNext.
  destruct (Nat.eqb_spec (length (sources props)) 0) as [H0 | _]; [lia |].
  destruct (pickNextIndex_step (selectionParams weight props (activeIndexRef c))
              random (randomCalls c) (shuffleStateRef c))
    as [i [calls [st [Hpick [Hi [Hne Hq']]]]]];
    [exact Hrandom | simpl; lia | exact Havoid | exact Hq |].
  simpl in Hi, Hne, Hq'.
  rewrite Hpick. cbn [mbind option_bind].
  destruct (decide (activeIndexRef c = Some i)) as [He | _]; [congruence |].
  destruct (lookup_lt_is_Some_2 (sources props) (Z.to_nat i)) as [s Hs]; [lia |].
  exists i, s, calls, st.
  split; [| split; [lia | split; [exact Hs | split; [exact Hne | exact Hq']]]].
  unfold read. destruct (Z.ltb_spec i 0); [lia |]. rewrite Hs. reflexivity.
Qed.

Lemma no_immediate_repeat_snoc (l : list Z) (x : Z) :
  no_immediate_repeat l -> last l <> Some x -> no_immediate_repeat (l ++ [x]).
Proof.
  induction l as [| a [| b l] IH]; intros Hl Hlast.
  - exact I.
  - simpl in *. split; [congruence | exact I].
  - destruct Hl as [Hab Hl]. split; [exact Hab |]. apply IH; assumption.
Qed.

Lemma selectMany_ok (reasons : list IndicatorChangeReason) (c : Selection Source) :
  selection_ok props c ->
  exists c', selectMany weight props random reasons c = Some c'
    /\ selection_ok props c'
    /\ event_reason <$> notified c' = (event_reason <$> notified c) ++ reasons.
Proof.
  revert c. induction reasons as [| reason reasons IH]; intros c Hc.
  - exists c. split; [reflexivity |]. split; [exact Hc |].
    rewrite app_nil_r. reflexivity.
  - destruct Hc as [Hq [Hact [Hrep Hall]]].
    destruct (selectNext_step reason c Hq) as [i [s [calls [st [Hsel [Hi [Hs [Hne Hq']]]]]]]].
    cbn [selectMany]. rewrite Hsel. cbn [mbind option_bind].
    destruct (IH (mkSelection (Some i) st calls
                    (notified c ++ [mkEvent i (Some s) reason])))
      as [c' [Hmany [Hc' Hreasons]]].
    { split; [exact Hq' |]. simpl. rewrite fmap_app. simpl.
      split; [rewrite last_snoc; reflexivity |]. split.
      - apply no_immediate_repeat_snoc; [exact Hrep | congruence].
      - apply Forall_app. split; [exact Hall |]. constructor; [| constructor].
        simpl. split; [exact Hi |]. split; [eauto | congruence]. }
    exists c'. split; [exact Hmany |]. split; [exact Hc' |].
    rewrite Hreasons. simpl. rewrite fmap_app. simpl.
    rewrite <- app_assoc. reflexivity.
Qed.

End Component.

(** X14: with [avoidImmediateRepeat], two sources or more and a random
    source with values in [0,1), a call of [selectNext] on a shuffle queue
    that keeps its invariant always changes the indicator: it makes another
    index of the sources active, and notifies [onIndicatorChange] once, with
    this index, its source and the reason of the call. *)
Theorem selectNext_changes_indicator {Source : Type} (weight : Source -> option Q)
    (props : SelectionProps Source) (random : source)
    (reason : IndicatorChangeReason) (c : Selection Source) :
  unit_source random ->
  (2 <= length (sources props))%nat ->
  avoidImmediateRepeatProp props = true ->
  queue_ok (Z.of_nat (length (sources props))) (queue (shuffleStateRef c)) ->
  exists i s c',
    selectNext weight props random reason c = Some c'
    /\ activeIndexRef c' = Some i
    /\ activeIndexRef c <> Some i
    /\ sources props !! Z.to_nat i = Some s
    /\ notified c' = notified c ++ [mkEvent i (Some s) reason]
    /\ queue_ok (Z.of_nat (length (sources props))) (queue (shuffleStateRef c')).
Proof.
  intros Hr Hn Ha Hq.
  destruct (selectNext_step weight props random Hr Hn Ha reason c Hq)
    as [i [s [calls [st [Hsel [Hi [Hs [Hne Hq']]]]]]]].
  exists i, s, (mkSelection (Some i) st calls (notified c ++ [mkEvent i (Some s) reason])).
  split; [exact Hsel |]. simpl. auto.
Qed.

Lemma selectNext_changes_indicator_witness :
  unit_source (createSeededRandom (SeedText (code_units "continuous-seed")))
  /\ exists i s c',
       selectNext no_weight (mkSelectionProps gif_sources shuffle true "key")
         (createSeededRandom (SeedText (code_units "continuous-seed")))
         interval (mkSelection (Some 1) {| queue := [1; 2]; signature := "key" |} 2 [])
       = Some c'
       /\ activeIndexRef c' = Some i
       /\ Some 1 <> Some i
       /\ gif_sources !! Z.to_nat i = Some s
       /\ notified c' = [] ++ [mkEvent i (Some s) interval]
       /\ queue_ok 3 (queue (shuffleStateRef c')).
Proof.
  split; [apply createSeededRandom_unit_source |].
  apply (selectNext_changes_indicator no_weight
           (mkSelectionProps gif_sources shuffle true "key")
           (createSeededRandom (SeedText (code_units "continuous-seed")))
           interval (mkSelection (Some 1) {| queue := [1; 2]; signature := "key" |} 2 [])).
  - apply createSeededRandom_unit_source.
  - simpl. lia.
  - reflexivity.
  - split.
    + apply NoDup_cons. split; [| apply NoDup_singleton].
      intros H. apply list_elem_of_singleton in H. discriminate.
    + repeat constructor; simpl; lia.
Defined.

(** X15: from the refs of a mounted component, any number of calls of
    [selectNext] under the same props, with [avoidImmediateRepeat], two
    sources or more and a random source with values in [0,1), all return;
    each call notifies [onIndicatorChange] once, with the reason of the
    call, an index of the sources and the source at this index; no two
    consecutive notifications carry the same index; and the active index is
    the one notified last. *)
Theorem selectMany_never_repeats {Source : Type} (weight : Source -> option Q)
    (props : SelectionProps Source) (random : source)
    (reasons : list IndicatorChangeReason) :
  unit_source random ->
  (2 <= length (sources props))%nat ->
  avoidImmediateRepeatProp props = true ->
  exists c',
    selectMany weight props random reasons mounted = Some c'
    /\ event_reason <$> notified c' = reasons
    /\ no_immediate_repeat (event_index <$> notified c')
    /\ Forall (fun e => 0 <= event_index e
                        /\ is_Some (event_source e)
                        /\ event_source e = sources props !! Z.to_nat (event_index e))
         (notified c')
    /\ activeIndexRef c' = last (event_index <$> notified c').
Proof.
  intros Hr Hn Ha.
  destruct (selectMany_ok weight props random Hr Hn Ha reasons mounted)
    as [c' [Hmany [[_ [Hact [Hrep Hall]]] Hreasons]]].
  { split; [apply queue_ok_nil |]. simpl. split; [reflexivity |].
    split; [exact I | constructor]. }
  exists c'. split; [exact Hmany |]. split; [exact Hreasons |]. auto.
Qed.

Lemma selectMany_never_repeats_witness :
  unit_source (createSeededRandom (SeedText (code_units "demo-seed")))
  /\ exists c',
       selectMany no_weight (mkSelectionProps gif_sources uniform true "key")
         (createSeededRandom (SeedText (code_units "demo-seed")))
         [load_start; interval; interval; interval] mounted = Some c'
       /\ event_reason <$> notified c' = [load_start; interval; interval; interval]
       /\ no_immediate_repeat (event_index <$> notified c')
       /\ Forall (fun e => 0 <= event_index e
                           /\ is_Some (event_source e)
                           /\ event_source e = gif_sources !! Z.to_nat (event_index e))
            (notified c')
       /\ activeIndexRef c' = last (event_index <$> notified c').
Proof.
  split; [apply createSeededRandom_unit_source |].
  apply (selectMany_never_repeats no_weight
           (mkSelectionProps gif_sources uniform true "key")
           (createSeededRandom (SeedText (code_units "demo-seed")))
           [load_start; interval; interval; interval]).
  - apply createSeededRandom_unit_source.
  - simpl. lia.
  - reflexivity.
Defined.

(** ** The shuffle bag under the component's feedback *)




Section ShuffleComponent.

Context {Source : Type}.
Variable weight : Source -> option Q.
Variable props : SelectionProps Source.
Variable random : source.

Hypothesis Hrandom : unit_source random.
Hypothesis Hsources : (2 <= length (sources props))%nat.
Hypothesis Havoid : avoidImmediateRepeatProp props = true.
Hypothesis Hshuffle : strategyProp props = shuffle.






End ShuffleComponent.



(** ** What [selectNext] notifies *)

(** X17: a call of [selectNext] notifies [onIndicatorChange] at most once,
    and only with an index that was not active before the call, which it
    makes active.  Without sources it clears the active index and touches
    neither the shuffle state nor the random source; otherwise, when it does
    not notify, the active index stays. *)
Theorem selectNext_notifies_changes_only {Source : Type}
    (weight : Source -> option Q) (props : SelectionProps Source)
    (random : source) (reason : IndicatorChangeReason) (c c' : Selection Source) :
  selectNext weight props random reason c = Some c' ->
  (sources props = []
   /\ c' = mkSelection None (shuffleStateRef c) (randomCalls c) (notified c))
  \/ (sources props <> []
      /\ notified c' = notified c /\ activeIndexRef c' = activeIndexRef c)
  \/ (sources props <> []
      /\ exists i,
           notified c' = notified c ++ [mkEvent i (read (sources props) i) reason]
           /\ activeIndexRef c' = Some i
           /\ activeIndexRef c <> Some i).
Proof.
  unfold selectNext.
  destruct (sources props) as [| s0 srcs] eqn:Hsrc; cbn [length Nat.eqb].
  - intros [= <-]. left. auto.
  - intros H. right.
    destruct (pickNextIndex _ _ _ _) as [[[[i | |] calls] st] |];
      cbn [mbind option_bind] in H; try discriminate.
    + destruct (decide (activeIndexRef c = Some i)) as [He | Hne];
        injection H as <-; simpl.
      * left. split; [discriminate | auto].
      * right. split; [discriminate |]. exists i. auto.
    + injection H as <-. left. split; [discriminate | auto].
Qed.

Lemma selectNext_notifies_changes_only_witness :
  selectNext no_weight (mkSelectionProps gif_sources uniform false "key")
    (constant (1#2)) interval (mkSelection (Some 1) fresh_state 0 [])
  = Some (mkSelection (Some 1) fresh_state 1 [])
  /\ ((gif_sources = []
       /\ mkSelection (Some 1) fresh_state 1 []
          = mkSelection None fresh_state 0 ([] : list (IndicatorChangeEvent string)))
      \/ (gif_sources <> []
          /\ ([] : list (IndicatorChangeEvent string)) = [] /\ Some 1 = Some 1)
      \/ (gif_sources <> []
          /\ exists i,
               [] = [] ++ [mkEvent i (read gif_sources i) interval]
               /\ Some 1 = Some i
               /\ Some 1 <> Some i)).
Proof.
  split; [reflexivity |].
  apply (selectNext_notifies_changes_only no_weight
           (mkSelectionProps gif_sources uniform false "key")
           (constant (1#2)) interval (mkSelection (Some 1) fresh_state 0 [])
           (mkSelection (Some 1) fresh_state 1 [])).
  reflexivity.
Defined.

(** ** The weights the component passes *)

(** X18: the weights the component passes to [pickNextIndex] are already
    clamped, and [pickByWeight] reads them back unchanged: the effective
    weight of a source is its [weight] when this is positive, 0 when it is
    zero or negative, and 1 when the source has no [weight]. *)
Theorem component_effective_weight {Source : Type} (weight : Source -> option Q)
    (srcs : list Source) (i : nat) (s : Source) :
  srcs !! i = Some s ->
  (safeWeight (componentWeights weight srcs) (Z.of_nat i)
   == match weight s with
      | Some w => if Qle_bool w 0 then 0 else w
      | None => 1
      end)%Q.
Proof.
  intros Hs. unfold safeWeight, componentWeights, read.
  destruct (Z.ltb_spec (Z.of_nat i) 0); [lia |].
  rewrite Nat2Z.id.
  change (List.map ?f srcs) with (f <$> srcs).
  rewrite list_lookup_fmap, Hs. simpl. unfold normalizedWeight.
  destruct (weight s) as [w |]; simpl.
  - destruct (Qle_bool w 0) eqn:Hle.
    + apply Qle_bool_iff in Hle.
      rewrite (Q.max_l 0 w Hle). apply Q.max_l. apply Qle_refl.
    + assert (Hgt : (0 < w)%Q).
      { apply Qnot_le_lt. intros Hc. apply Qle_bool_iff in Hc. congruence. }
      rewrite (Q.max_r 0 w) by (apply Qlt_le_weak, Hgt).
      apply Q.max_r. apply Qlt_le_weak, Hgt.
  - rewrite (Q.max_r 0 1) by (unfold Qle; simpl; lia).
    apply Q.max_r. unfold Qle; simpl; lia.
Qed.

Lemma component_effective_weight_witness :
  [Some (-3)%Q; None; Some (5 # 2)] !! 0%nat = Some (Some (-3)%Q)
  /\ (safeWeight (componentWeights id [Some (-3)%Q; None; Some (5 # 2)]) (Z.of_nat 0)
      == match id (Some (-3)%Q) with
         | Some w => if Qle_bool w 0 then 0 else w
         | None => 1
         end)%Q.
Proof.
  split; [reflexivity |].
  apply (component_effective_weight id [Some (-3)%Q; None; Some (5 # 2)] 0
           (Some (-3)%Q)).
  reflexivity.
Defined.

(** ** The uniform pick in closed form *)





(** ** One pick per loading session *)

(** A call of [selectNext] returns and leaves an active index that is null
    when there are no sources and an index of the sources otherwise. *)
Lemma selectNext_settles {Source : Type} (weight : Source -> option Q)
    (props : SelectionProps Source) (random : source)
    (reason : IndicatorChangeReason) (c : Selection Source) :
  unit_source random ->
  queue_ok (Z.of_nat (length (sources props))) (queue (shuffleStateRef c)) ->
  exists c', selectNext weight props random reason c = Some c'
    /\ ((sources props = []
         /\ c' = mkSelection None (shuffleStateRef c) (randomCalls c) (notified c))
        \/ exists i, activeIndexRef c' = Some i
                     /\ 0 <= i < Z.of_nat (length (sources props))).
Proof.
  intros Hr Hq. unfold selectNext.
  destruct (sources props) as [| s0 srcs] eqn:Hsrc; cbn [length Nat.eqb].
  - eexists. split; [reflexivity |]. left. auto.
  - destruct (pickNextIndex_index (selectionParams weight props (activeIndexRef c))
                random (randomCalls c) (shuffleStateRef c))
      as [i [calls [st [Hpick Hi]]]].
    + exact Hr.
    + simpl. rewrite Hsrc. simpl. lia.
    + intros _ _. simpl. rewrite Hsrc. exact Hq.
    + simpl in Hi. rewrite Hsrc in Hi. rewrite Hpick.
      cbn [mbind option_bind].
      destruct (decide (activeIndexRef c = Some i)) as [He | Hne];
        (eexists; split; [reflexivity |]; right; exists i; simpl; auto).
Qed.

(** X20: one pick per loading session.  For a random source with values
    in [0,1) and a shuffle queue that keeps its invariant, a run of the
    effect while [loading] is true returns, and a second run under the same
    props changes nothing: it does not call [selectNext] again when an index
    of the sources is active, and without sources the call it makes leaves
    every ref as it is. *)
Theorem loadingEffect_picks_once {Source : Type} (weight : Source -> option Q)
    (props : SelectionProps Source) (random : source)
    (idleBehavior : IdleBehavior) (r : EffectRefs Source) :
  unit_source random ->
  queue_ok (Z.of_nat (length (sources props)))
    (queue (shuffleStateRef (selectionRefs r))) ->
  exists r1,
    loadingEffect weight props random true idleBehavior r = Some r1
    /\ loadingEffect weight props random true idleBehavior r1 = Some r1.
Proof.
  intros Hr Hq.
  assert (Hsame : forall sel,
            (sources props = [] /\ activeIndexRef sel = None
             \/ exists i, activeIndexRef sel = Some i
                          /\ i < Z.of_nat (length (sources props))) ->
            loadingEffect weight props random true idleBehavior
              (mkEffectRefs sel true (selectionKey props))
            = Some (mkEffectRefs sel true (selectionKey props))).
  { intros sel Hsel. unfold loadingEffect. cbn [previousLoading previousSelectionKey
      selectionRefs negb]. rewrite String.eqb_refl. cbn [negb orb].
    destruct Hsel as [[Hnil Hact] | [i [Hact Hi]]]; rewrite Hact; simpl.
    - unfold selectNext. rewrite Hnil. simpl. rewrite <- Hact.
      destruct sel; reflexivity.
    - destruct (Z.leb_spec (Z.of_nat (length (sources props))) i); [lia | reflexivity]. }
  assert (Hcall : forall reason,
            exists sel, selectNext weight props random reason (selectionRefs r) = Some sel
              /\ (sources props = [] /\ activeIndexRef sel = None
                  \/ exists i, activeIndexRef sel = Some i
                               /\ i < Z.of_nat (length (sources props)))).
  { intros reason.
    destruct (selectNext_settles weight props random reason (selectionRefs r) Hr Hq)
      as [sel [Hsel [[Hnil Heq] | [i [Hact Hi]]]]]; exists sel; (split; [exact Hsel |]).
    - left. rewrite Heq. auto.
    - right. exists i. split; [exact Hact | lia]. }
  unfold loadingEffect at 1.
  destruct (previousLoading r) eqn:Hprev; cbn [negb].
  - destruct (negb (String.eqb (previousSelectionKey r) (selectionKey props))
              || active_is_stale props (activeIndexRef (selectionRefs r))) eqn:Hstale.
    + destruct (Hcall source_update) as [sel [-> Hsel]]. cbn [mbind option_bind].
      eexists. split; [reflexivity |]. apply Hsame, Hsel.
    + cbn [mbind option_bind]. eexists. split; [reflexivity |]. apply Hsame.
      apply orb_false_iff in Hstale as [_ Hstale]. right.
      destruct (activeIndexRef (selectionRefs r)) as [a |]; [| discriminate].
      simpl in Hstale. exists a. split; [reflexivity |].
      destruct (Z.leb_spec (Z.of_nat (length (sources props))) a); [discriminate | lia].
  - destruct (Hcall load_start) as [sel [-> Hsel]]. cbn [mbind option_bind].
    eexists. split; [reflexivity |]. apply Hsame, Hsel.
Qed.

Lemma loadingEffect_picks_once_witness :
  unit_source (createSeededRandom (SeedText (code_units "demo-seed")))
  /\ queue_ok (Z.of_nat (length gif_sources)) []
  /\ exists r1,
       loadingEffect no_weight (mkSelectionProps gif_sources uniform true "key")
         (createSeededRandom (SeedText (code_units "demo-seed"))) true idle_hidden
         (mkEffectRefs mounted false "") = Some r1
       /\ loadingEffect no_weight (mkSelectionProps gif_sources uniform true "key")
            (createSeededRandom (SeedText (code_units "demo-seed"))) true idle_hidden
            r1 = Some r1.
Proof.
  split; [apply createSeededRandom_unit_source |].
  split; [apply queue_ok_nil |].
  apply (loadingEffect_picks_once no_weight
           (mkSelectionProps gif_sources uniform true "key")
           (createSeededRandom (SeedText (code_units "demo-seed"))) idle_hidden
           (mkEffectRefs mounted false "")).
  - apply createSeededRandom_unit_source.
  - apply queue_ok_nil.
Defined.
